(** * Simon: the game engine of [src/main.js], embedded and verified

    The engine is one closure over a mutable [state] object, a handful of
    [async] functions and the event listeners that call them.  The embedding
    keeps that shape:

    - [State] is the [state] object literal, field for field;
    - JavaScript numbers are modelled exactly: counters and indices as [nat],
      signals and integer milliseconds as [Z], fractional values (accuracy,
      [performance.now()]) as rationals [Q], and the step duration, which is
      [NaN] when the tone radio names an inherited member of the preset
      table, as a [JsNum].  Every double is a rational; the rounding of
      double arithmetic is not modelled, except in [drawRtSpark], which
      takes the rounding as a function;
    - [state.sequence] is a reference into a [heap] of array objects, because
      the playback loop of [showSequence] iterates over the array object it
      started on while other code may push to, or replace, [state.sequence];
    - an [async] function is cut at its [await]s.  The code up to the first
      [await] is a function from [World] to [World] that also returns the
      suspended continuation as a [Task]; [resume] runs a continuation up to
      its next [await].  Timers are not modelled: any pending task may be
      resumed next, which includes every real schedule;
    - whatever the code reads from outside (DOM inputs, clocks, the random
      source, whether a storage write succeeds) is an [Env] handed to each
      synchronous segment;
    - what the code writes to the page (status text, classes, audio) is left
      out of the engine, except for the calls of [lightAndSound], which are
      logged; the page is taken to have its four pads, and the audio context
      to accept every call, so that no access throws.  The functions that
      draw the statistics card and the leaderboard, and [playTone], are
      modelled on their own, as functions from what they read to what they
      show or schedule;
    - an event may arrive in any state.  [enablePads] also sets [disabled]
      on the pads; whether the browser then withholds their events is not
      modelled, the listeners are what decides. *)

From Stdlib Require Import QArith Qminmax Qround ZArith List String Lia Lqa Sorted.
From stdpp Require Import base list strings gmap pretty.
Import ListNotations.

(** ** Numbers *)

(** [x | 0]: ECMAScript ToInt32, truncation towards zero followed by
    wrap-around into the signed 32-bit range. *)
Definition toInt32 (x : Q) : Z :=
  let t := Z.quot (Qnum x) (Zpos (Qden x)) in
  let m := (t mod 2 ^ 32)%Z in
  if (2 ^ 31 <=? m)%Z then (m - 2 ^ 32)%Z else m.

Arguments toInt32 : simpl never.

(** [a || b] on numbers: the first operand unless it is zero. *)
Definition js_or (a b : Q) : Q := if Qeq_bool a 0%Q then b else a.

Definition ofNat (n : nat) : Q := inject_Z (Z.of_nat n).

(** A number that may be [NaN]. *)
Inductive JsNum := Num (q : Q) | NaN.

(** ** Tone presets (lines 72-83) *)

Record Preset := mkPreset { press : Q; stepMul : Q }.

Definition PRESETS : gmap string Preset :=
  {[ "short"%string := mkPreset 120%Q 0.85%Q;
     "medium"%string := mkPreset 150%Q 1.00%Q;
     "long"%string := mkPreset 220%Q 1.15%Q ]}.

(** The names every plain object inherits from [Object.prototype].  The
    lookup [PRESETS[sel]] finds them as well as the three own keys. *)
Definition Object_prototype : list string :=
  [ "constructor"; "hasOwnProperty"; "isPrototypeOf"; "propertyIsEnumerable";
    "toLocaleString"; "toString"; "valueOf"; "__proto__";
    "__defineGetter__"; "__defineSetter__"; "__lookupGetter__";
    "__lookupSetter__" ]%string.

(** [checked] is the value of the checked tone radio button, if any.  The
    result is the preset the lookup finds, [medium] when it finds nothing,
    and [None] when it finds an inherited member: that member is truthy, so
    it is returned in place of a preset, and its [press] and [stepMul] read
    [undefined]. *)
Definition currentPreset (checked : option string) : option Preset :=
  let sel := match checked with
             | Some v => if bool_decide (v = ""%string) then "medium"%string else v
             | None => "medium"%string
             end in
  match PRESETS !! sel with
  | Some p => Some p
  | None => if bool_decide (sel ∈ Object_prototype) then None
            else PRESETS !! "medium"%string
  end.

(** ** The [state] object (lines 153-172) *)

Inductive Mode := idle | playing | gameending | gameover.

Definition Mode_eqb (a b : Mode) : bool :=
  match a, b with
  | idle, idle | playing, playing | gameending, gameending
  | gameover, gameover => true
  | _, _ => false
  end.

Record State := mkState {
  mode : Mode;
  sequence : nat;            (* reference to the array object in the heap *)
  accepting : bool;
  inputIndex : nat;
  round : nat;
  showing : bool;
  recent : list Z;
  recentWindow : nat;
  runInputs : nat;
  runCorrect : nat;
  completedRounds : nat;
  rts : list Z;
  padEnableTs : Q;
  rtWindow : nat
}.

Definition set_mode (v : Mode) (s : State) : State :=
  mkState v (sequence s) (accepting s) (inputIndex s) (round s) (showing s)
    (recent s) (recentWindow s) (runInputs s) (runCorrect s)
    (completedRounds s) (rts s) (padEnableTs s) (rtWindow s).
Definition set_sequence (v : nat) (s : State) : State :=
  mkState (mode s) v (accepting s) (inputIndex s) (round s) (showing s)
    (recent s) (recentWindow s) (runInputs s) (runCorrect s)
    (completedRounds s) (rts s) (padEnableTs s) (rtWindow s).
Definition set_accepting (v : bool) (s : State) : State :=
  mkState (mode s) (sequence s) v (inputIndex s) (round s) (showing s)
    (recent s) (recentWindow s) (runInputs s) (runCorrect s)
    (completedRounds s) (rts s) (padEnableTs s) (rtWindow s).
Definition set_inputIndex (v : nat) (s : State) : State :=
  mkState (mode s) (sequence s) (accepting s) v (round s) (showing s)
    (recent s) (recentWindow s) (runInputs s) (runCorrect s)
    (completedRounds s) (rts s) (padEnableTs s) (rtWindow s).
Definition set_round (v : nat) (s : State) : State :=
  mkState (mode s) (sequence s) (accepting s) (inputIndex s) v (showing s)
    (recent s) (recentWindow s) (runInputs s) (runCorrect s)
    (completedRounds s) (rts s) (padEnableTs s) (rtWindow s).
Definition set_showing (v : bool) (s : State) : State :=
  mkState (mode s) (sequence s) (accepting s) (inputIndex s) (round s) v
    (recent s) (recentWindow s) (runInputs s) (runCorrect s)
    (completedRounds s) (rts s) (padEnableTs s) (rtWindow s).
Definition set_recent (v : list Z) (s : State) : State :=
  mkState (mode s) (sequence s) (accepting s) (inputIndex s) (round s)
    (showing s) v (recentWindow s) (runInputs s) (runCorrect s)
    (completedRounds s) (rts s) (padEnableTs s) (rtWindow s).
Definition set_runInputs (v : nat) (s : State) : State :=
  mkState (mode s) (sequence s) (accepting s) (inputIndex s) (round s)
    (showing s) (recent s) (recentWindow s) v (runCorrect s)
    (completedRounds s) (rts s) (padEnableTs s) (rtWindow s).
Definition set_runCorrect (v : nat) (s : State) : State :=
  mkState (mode s) (sequence s) (accepting s) (inputIndex s) (round s)
    (showing s) (recent s) (recentWindow s) (runInputs s) v
    (completedRounds s) (rts s) (padEnableTs s) (rtWindow s).
Definition set_completedRounds (v : nat) (s : State) : State :=
  mkState (mode s) (sequence s) (accepting s) (inputIndex s) (round s)
    (showing s) (recent s) (recentWindow s) (runInputs s) (runCorrect s)
    v (rts s) (padEnableTs s) (rtWindow s).
Definition set_rts (v : list Z) (s : State) : State :=
  mkState (mode s) (sequence s) (accepting s) (inputIndex s) (round s)
    (showing s) (recent s) (recentWindow s) (runInputs s) (runCorrect s)
    (completedRounds s) v (padEnableTs s) (rtWindow s).
Definition set_padEnableTs (v : Q) (s : State) : State :=
  mkState (mode s) (sequence s) (accepting s) (inputIndex s) (round s)
    (showing s) (recent s) (recentWindow s) (runInputs s) (runCorrect s)
    (completedRounds s) (rts s) v (rtWindow s).

(** ** Accuracy (lines 175-186) *)

(** [Array.prototype.shift]: drop the first element. *)
Definition Array_shift {A} (l : list A) : list A := drop 1 l.

Definition recordResult (ok : bool) (s : State) : State :=
  let s := set_recent (recent s ++ [if ok then 1%Z else 0%Z]) s in
  let s := if (recentWindow s <? length (recent s))%nat
           then set_recent (Array_shift (recent s)) s else s in
  let s := set_runInputs (runInputs s + 1) s in
  if ok then set_runCorrect (runCorrect s + 1) s else s.

Definition getRecentAccuracy (s : State) : Q :=
  if (length (recent s) =? 0)%nat then 0.85%Q
  else (inject_Z (fold_left Z.add (recent s) 0%Z) / ofNat (length (recent s)))%Q.

(** ** Reaction times (lines 200-206) *)

Definition pushReaction (ms : Q) (s : State) : State :=
  let clamped := Z.max 50%Z (Z.min 2000%Z (toInt32 ms)) in
  let s := set_rts (rts s ++ [clamped]) s in
  if (rtWindow s <? length (rts s))%nat then set_rts (Array_shift (rts s)) s else s.

(** ** Speed (lines 236-243) *)

(** The arithmetic of [stepDuration], as a function of the two values the
    source reads on the way: the recent accuracy and the preset multiplier. *)
Definition stepDurationOf (acc presetMul : Q) (round : nat) : Q :=
  let base := 720%Q in
  let min := 200%Q in
  let roundFactor := (ofNat round * 45)%Q in
  let accBonus := (Qmax 0 (acc - 0.60) * 380)%Q in
  Qmax min ((base - roundFactor - accBonus) * presetMul)%Q.

(** With an [undefined] multiplier the product, and with it the maximum,
    is [NaN]. *)
Definition stepDuration (checked : option string) (s : State) (round : nat)
    : JsNum :=
  match currentPreset checked with
  | Some p => Num (stepDurationOf (getRecentAccuracy s) (stepMul p) round)
  | None => NaN
  end.

(** ** Leaderboard (lines 304-345) *)

Module Score.
Record t := mk { name : string; round : nat; acc : Q; strict : bool; time : Z }.
End Score.

(** What one synchronous stretch of code reads from outside the engine. *)
Record Env := mkEnv {
  playerName : string;          (* getPlayerName(): the trimmed name field *)
  strictChecked : bool;         (* strictToggle?.checked *)
  toneChecked : option string;  (* value of the checked tone radio *)
  perfNow : Q;                  (* performance.now() *)
  dateNow : Z;                  (* Date.now() *)
  mathRandom : Q;               (* Math.random() *)
  setItemOk : bool              (* localStorage.setItem does not throw *)
}.

(** The persistence side: whether the list element exists, the start-up probe
    of [localStorage], the in-memory fallback and the stored item.  The JSON
    text under [LB_KEY] is modelled by the list it encodes; [None] stands for
    an absent item and for one that cannot be read or parsed, both of which
    [loadLeaderboard] turns into the empty list. *)
Record Store := mkStore {
  lbList : bool;
  storageOK : bool;
  memLB : list Score.t;
  lsItem : option (list Score.t)
}.

Definition loadLeaderboard (st : Store) : list Score.t :=
  if negb (lbList st) then []
  else if negb (storageOK st) then memLB st
  else default [] (lsItem st).

Definition saveLeaderboard (ok : bool) (list : list Score.t) (st : Store) : Store :=
  if negb (lbList st) then st
  else
    let trimmed := take 200 list in
    if negb (storageOK st)
    then mkStore (lbList st) (storageOK st) trimmed (lsItem st)
    else if ok then mkStore (lbList st) (storageOK st) (memLB st) (Some trimmed)
    else st.

(** The comparator handed to [sort]:
    [b.round - a.round || b.acc - a.acc || b.time - a.time]. *)
Definition cmpScore (a b : Score.t) : Q :=
  js_or (js_or (ofNat (Score.round b) - ofNat (Score.round a))%Q
               (Score.acc b - Score.acc a)%Q)
        (inject_Z (Score.time b - Score.time a)%Z).

(** [Array.prototype.sort] with a comparator: the language fixes the result
    for a consistent comparator (ordered by it, stable), and that result is
    what a stable insertion sort computes. *)
Section Sort.
Context {A : Type} (cmp : A -> A -> Q).

Fixpoint sort_insert (x : A) (l : list A) : list A :=
  match l with
  | [] => [x]
  | y :: l' => if Qlt_le_dec 0%Q (cmp x y) then y :: sort_insert x l'
               else x :: y :: l'
  end.

Definition Array_sort (l : list A) : list A := foldr sort_insert [] l.
End Sort.

Definition addScore (env : Env) (name : string) (round : nat) (acc : Q)
    (strict : bool) (timeOverride : option Z) (st : Store) : Store :=
  if negb (lbList st) || bool_decide (name = ""%string) then st
  else
    let list := loadLeaderboard st in
    let list := list ++ [Score.mk name round acc strict
                           (default (dateNow env) timeOverride)] in
    let list := Array_sort cmpScore list in
    saveLeaderboard (setItemOk env) list st.

(** ** The world the engine runs in *)

(** [lit] is the display surface as far as the engine drives it: the calls
    [lightAndSound(i, dur)] made so far, oldest first. *)
Record World := mkWorld {
  state : State;
  heap : list (list Z);
  store : Store;
  lastAddedTs : option Z;
  lit : list (Z * JsNum)
}.

Notation "x |> f" := (f x) (at level 50, left associativity, only parsing).

Definition on_state (f : State -> State) (w : World) : World :=
  mkWorld (f (state w)) (heap w) (store w) (lastAddedTs w) (lit w).

Definition deref (r : nat) (h : list (list Z)) : list Z := default [] (h !! r).

(** The array [state.sequence] currently refers to. *)
Definition seq_of (w : World) : list Z := deref (sequence (state w)) (heap w).

(** [state.sequence = []]: a fresh array object. *)
Definition new_sequence (w : World) : World :=
  mkWorld (set_sequence (length (heap w)) (state w)) (heap w ++ [[]])
    (store w) (lastAddedTs w) (lit w).

(** [state.sequence.push(x)]: the array object is updated in place. *)
Definition sequence_push (x : Z) (w : World) : World :=
  mkWorld (state w) (alter (fun a => a ++ [x]) (sequence (state w)) (heap w))
    (store w) (lastAddedTs w) (lit w).

(** Suspended continuations, one per [await] of the engine. *)
Inductive Task :=
| GetReady                                  (* onMainButton, line 421 *)
| Ending                                    (* onMainButton, line 427 *)
| BeforeShow                                (* nextRound, line 437 *)
| StepOn (arr next : nat) (dur : JsNum)     (* lightAndSound, line 262 *)
| StepGap (arr next : nat) (dur : JsNum)    (* lightAndSound, line 265 *)
| PressOn (index : Z)                       (* handlePadPress, line 450 *)
| PressGap (index : Z)                      (* handlePadPress, line 452 *)
| StrictEnd                                 (* handlePadPress, line 465 *)
| Retry                                     (* handlePadPress, line 468 *)
| RoundDone.                                (* handlePadPress, line 481 *)

(** ** Pads and playback (lines 248-281) *)

Definition enablePads (now : Q) (on : bool) (s : State) : State :=
  let s := set_accepting on s in
  if on then set_padEnableTs now s else s.

Definition lightAndSound (i : Z) (dur : JsNum) (w : World) : World :=
  mkWorld (state w) (heap w) (store w) (lastAddedTs w) (lit w ++ [(i, dur)]).

(** One turn of the [for (const idx of state.sequence)] loop: the iterator
    over array object [arr] is asked for element [next]; when there is none
    the code after the loop runs. *)
Definition playback (env : Env) (arr next : nat) (dur : JsNum) (w : World)
    : World * list Task :=
  match deref arr (heap w) !! next with
  | Some idx =>
      if negb (Mode_eqb (mode (state w)) playing)
      then (w |> on_state (set_showing false), [])
      else (w |> lightAndSound idx dur, [StepOn arr (S next) dur])
  | None =>
      (w |> on_state (set_showing false)
         |> on_state (enablePads (perfNow env) true), [])
  end.

Definition showSequence (env : Env) (w : World) : World * list Task :=
  let w := w |> on_state (set_showing true)
             |> on_state (enablePads (perfNow env) false) in
  let dur := stepDuration (toneChecked env) (state w) (round (state w)) in
  playback env (sequence (state w)) 0 dur w.

(** ** Idle reset (lines 290-301) *)

Definition resetToIdleUI (w : World) : World :=
  w |> on_state (set_mode idle)
    |> new_sequence
    |> on_state (set_accepting false)
    |> on_state (set_inputIndex 0)
    |> on_state (set_round 0)
    |> on_state (set_showing false)
    |> on_state (set_recent [])
    |> on_state (set_runInputs 0)
    |> on_state (set_runCorrect 0)
    |> on_state (set_completedRounds 0)
    |> on_state (set_rts []).

(** ** End of a run (lines 390-408) *)

Definition finalizeRun (env : Env) (w : World) : World :=
  let finalRound := completedRounds (state w) in
  let finalAcc :=
    if (runInputs (state w) =? 0)%nat then 0%Q
    else (ofNat (runCorrect (state w)) / ofNat (runInputs (state w)))%Q in
  let w :=
    if (0 <? finalRound)%nat then
      let t := dateNow env in
      mkWorld (state w) (heap w)
        (addScore env (playerName env) finalRound finalAcc
           (strictChecked env) (Some t) (store w))
        (Some t) (lit w)
    else w in
  w |> on_state (set_mode gameover)
    |> on_state (enablePads (perfNow env) false)
    |> new_sequence
    |> on_state (set_accepting false)
    |> on_state (set_inputIndex 0)
    |> on_state (set_round 0)
    |> on_state (set_showing false).

(** ** Flow (lines 411-484) *)

Definition nextRound (w : World) : World * list Task :=
  if negb (Mode_eqb (mode (state w)) playing) then (w, [])
  else (w |> on_state (set_inputIndex 0)
          |> on_state (fun s => set_round (round s + 1) s), [BeforeShow]).

(** [nextRound] after its pause: lines 438-439. *)
Definition nextRound_show (env : Env) (w : World) : World * list Task :=
  w |> sequence_push (Qfloor (mathRandom env * 4)) |> showSequence env.

Definition onMainButton (env : Env) (w : World) : World * list Task :=
  match mode (state w) with
  | idle =>
      if bool_decide (playerName env = ""%string) then (w, [])
      else (w |> on_state (set_mode playing)
              |> new_sequence
              |> on_state (set_inputIndex 0)
              |> on_state (set_round 0)
              |> on_state (set_completedRounds 0)
              |> on_state (set_recent [])
              |> on_state (set_runInputs 0)
              |> on_state (set_runCorrect 0)
              |> on_state (set_rts []), [GetReady])
  | playing =>
      (w |> on_state (set_mode gameending)
         |> on_state (enablePads (perfNow env) false), [Ending])
  | gameover => (resetToIdleUI w, [])
  | gameending => (w, [])
  end.

(** [handlePadPress] up to its first [await]: the guard of line 445. *)
Definition handlePadPress (index : Z) (w : World) : World * list Task :=
  if negb (Mode_eqb (mode (state w)) playing) || negb (accepting (state w))
  then (w, [])
  else (w, [PressOn index]).

(** [handlePadPress] after the press feedback: lines 454-483. *)
Definition handlePadPress_validate (env : Env) (index : Z) (w : World)
    : World * list Task :=
  let w :=
    if (inputIndex (state w) =? 0)%nat && negb (Qeq_bool (padEnableTs (state w)) 0)
    then w |> on_state (pushReaction (perfNow env - padEnableTs (state w)))
    else w in
  let expected := seq_of w !! inputIndex (state w) in
  if negb (bool_decide (expected = Some index)) then
    let w := w |> on_state (recordResult false)
               |> on_state (enablePads (perfNow env) false) in
    if strictChecked env then (w, [StrictEnd]) else (w, [Retry])
  else
    let w := w |> on_state (recordResult true)
               |> on_state (fun s => set_inputIndex (inputIndex s + 1) s) in
    if (inputIndex (state w) =? length (seq_of w))%nat then
      (w |> on_state (fun s => set_completedRounds
                                 (Nat.max (completedRounds s) (round s)) s)
         |> on_state (enablePads (perfNow env) false), [RoundDone])
    else (w, []).

(** The non-strict branch after its pause: line 469. *)
Definition handlePadPress_retry (env : Env) (w : World) : World * list Task :=
  w |> on_state (set_inputIndex 0) |> showSequence env.

(** Running a suspended continuation up to its next [await]. *)
Definition resume (env : Env) (t : Task) (w : World) : World * list Task :=
  match t with
  | GetReady => nextRound w
  | Ending => (finalizeRun env w, [])
  | BeforeShow => nextRound_show env w
  | StepOn arr next dur => (w, [StepGap arr next dur])
  | StepGap arr next dur => playback env arr next dur w
  | PressOn index => (w, [PressGap index])
  | PressGap index => handlePadPress_validate env index w
  | StrictEnd => (finalizeRun env w, [])
  | Retry => handlePadPress_retry env w
  | RoundDone => nextRound w
  end.

(** ** Events (lines 487-498, 541-547) and the scheduler *)

Inductive Key := Enter | Space.

Inductive Event :=
| PointerDown (index : Z)     (* pointerdown on a pad *)
| PadKeyDown (key : Key) (index : Z)   (* Enter or Space on a focused pad *)
| MainButton                  (* click on the main button, or Enter elsewhere *)
| ClearLb                     (* confirmed click on the clear button *)
| Resume (n : nat).           (* the n-th pending continuation is resumed *)

Record Config := mkConfig { world : World; pending : list Task }.

Definition spawn (pend : list Task) (r : World * list Task) : Config :=
  mkConfig (fst r) (pend ++ snd r).

Definition fire (env : Env) (ev : Event) (c : Config) : Config :=
  match ev with
  | PointerDown index =>
      if negb (Mode_eqb (mode (state (world c))) playing)
         || negb (accepting (state (world c)))
      then c
      else spawn (pending c) (handlePadPress index (world c))
  | PadKeyDown key index =>
      (* the listener of the pad, then, the event bubbling, the listener of
         the document, which calls [onMainButton] on Enter *)
      let c := spawn (pending c) (handlePadPress index (world c)) in
      match key with
      | Enter => spawn (pending c) (onMainButton env (world c))
      | Space => c
      end
  | MainButton => spawn (pending c) (onMainButton env (world c))
  | ClearLb =>
      let w := world c in
      let st := store w in
      mkConfig (mkWorld (state w) (heap w)
                  (mkStore (lbList st) (storageOK st) (memLB st) None)
                  (lastAddedTs w) (lit w)) (pending c)
  | Resume n =>
      match pending c !! n with
      | Some t => spawn (delete n (pending c)) (resume env t (world c))
      | None => c
      end
  end.

(** The [state] literal of lines 153-172 and the start-up code of lines
    549-552. *)
Definition state0 : State :=
  mkState idle 0 false 0 0 false [] 20 0 0 0 [] 0%Q 24.

Definition init (lb ok : bool) (item : option (list Score.t)) : Config :=
  mkConfig
    (mkWorld state0 [[]] (mkStore lb ok [] item) None []
       |> on_state (enablePads 0%Q false) |> resetToIdleUI)
    [].

Definition step (c c' : Config) : Prop := exists env ev, c' = fire env ev c.

Inductive reachable : Config -> Prop :=
| reach_init lb ok item : reachable (init lb ok item)
| reach_step c c' : reachable c -> step c c' -> reachable c'.

(** Running a script of events, each with the environment it sees. *)
Definition run (script : list (Env * Event)) (c : Config) : Config :=
  fold_left (fun c ee => fire (fst ee) (snd ee) c) script c.

(** ** The random pad (line 246) *)

Definition randomStep (u : Q) : Z := Qfloor (u * 4).

(** ** Tones (lines 86, 101-120)

    [playTone] as the schedule it hands to the audio context at time
    [currentTime]: the oscillator frequency, the two gain ramps and the stop
    time, in seconds.  With the sound toggle off nothing is scheduled.  An
    index outside the table reads [undefined], which is [None] here. *)
Definition FREQS : list Q := [329.63; 261.63; 220.0; 164.81]%Q.

Record Tone := mkTone {
  frequency : option Q;
  startAt : Q;
  rampUpEnd : Q;      (* gain reaches 1.0 *)
  rampDownEnd : Q;    (* gain back at 0.0001 *)
  stopAt : Q
}.

Definition playTone (soundChecked : bool) (currentTime : Q) (index : Z)
    (duration : Q) : option Tone :=
  if negb soundChecked then None
  else
    let now := currentTime in
    let attack := 0.01%Q in
    let release := 0.08%Q in
    let durSec := Qmax 0.05 (duration / 1000) in
    Some (mkTone
            (let r := Z.rem index (Z.of_nat (length FREQS)) in
             if (r <? 0)%Z then None else FREQS !! Z.to_nat r)
            now (now + attack)%Q (now + durSec - release)%Q
            (now + durSec + 0.02)%Q).

(** ** What the page shows (lines 187-233, 283-288, 312-321, 347-388)

    The functions that write the statistics card and the leaderboard are
    modelled by the values they hand to the page.  Numbers are printed in
    decimal, as template literals print integers of this size; the two
    locale-dependent renderings of a date are parameters. *)

(** [Math.round]: the nearest integer, halves upwards. *)
Definition Math_round (x : Q) : Z := Qfloor (x + (1 # 2)).

(** [Math.min(...v)] and [Math.max(...v)] of a non-empty array. *)
Definition Math_min_list (v : list Z) : Z :=
  match v with [] => 0%Z | x :: r => fold_left Z.min r x end.
Definition Math_max_list (v : list Z) : Z :=
  match v with [] => 0%Z | x :: r => fold_left Z.max r x end.

(** Lines 187-196: the text of the accuracy value, the width of the bar,
    [aria-valuenow] and the footnote. *)
Record AccuracyView := mkAccuracyView {
  accValue : string;
  accFill : string;
  accBar : string;
  accFoot : string
}.

Definition displayAccuracyValue (s : State) : AccuracyView :=
  if (length (recent s) =? 0)%nat
  then mkAccuracyView "—" "0%" "0" "Based on last 0 inputs"
  else
    let pct := Math_round (getRecentAccuracy s * 100) in
    mkAccuracyView (pretty pct ++ "%")%string (pretty pct ++ "%")%string
      (pretty pct)
      ("Based on last " ++ pretty (length (recent s)) ++ " inputs")%string.

(** Lines 207-233 on a canvas of width [w] and height [h], both whole
    numbers of pixels: the height of the average guide, the points of the
    line plot in drawing order, the highlighted last point and the two
    texts; nothing is drawn for an empty history.  The coordinates are
    doubles: [fl] is the rounding of double arithmetic, applied to the
    result of every operation that need not be a whole number. *)
Record Spark := mkSpark {
  avgY : Q;
  plot : list (Q * Q);
  lastDot : Q * Q;
  rtAvg : string;
  rtFoot : string
}.

Inductive SparkView :=
| SparkEmpty (rtAvgText rtFootText : string)
| SparkDrawn (sp : Spark).

Definition drawRtSpark (fl : Q -> Q) (w h : Z) (v : list Z) : SparkView :=
  if (length v =? 0)%nat then SparkEmpty "—" "Last 0 rounds"
  else
    let n := length v in
    let min := Math_min_list v in
    let max := Math_max_list v in
    let padX := 2%Z in
    let padY := 3%Z in
    let innerW := (w - padX * 2)%Z in
    let innerH := (h - padY * 2)%Z in
    let stepX := fl (inject_Z innerW / Qmax 1 (ofNat n - 1))%Q in
    let mapY := fun val : Q =>
      fl (inject_Z (padY + innerH)
          - fl (fl (fl (val - inject_Z min) / Qmax 1 (inject_Z (max - min)))
                * inject_Z innerH))%Q in
    let avg := fl (inject_Z (fold_left Z.add v 0%Z) / ofNat n)%Q in
    SparkDrawn
      (mkSpark (mapY avg)
         (imap (fun i val =>
                  (fl (inject_Z padX + fl (ofNat i * stepX))%Q,
                   mapY (inject_Z val))) v)
         (fl (inject_Z padX + fl ((ofNat n - 1) * stepX))%Q,
          mapY (inject_Z (List.last v 0%Z)))
         (pretty (Math_round avg) ++ " ms")%string
         ("Last " ++ pretty n ++ " rounds · min " ++ pretty min
          ++ " · max " ++ pretty max)%string).

(** Lines 312-321. *)
Definition formatRelativeTime (toLocaleDateString : Z -> string)
    (now ts : Z) : string :=
  let s := ((now - ts) / 1000)%Z in
  if (s <? 5)%Z then "just now"
  else if (s <? 60)%Z then (pretty s ++ "s ago")%string
  else
    let m := (s / 60)%Z in
    if (m <? 60)%Z then (pretty m ++ "m ago")%string
    else
      let h := (m / 60)%Z in
      if (h <? 24)%Z then (pretty h ++ "h ago")%string
      else
        let d := (h / 24)%Z in
        if (d <? 7)%Z then (pretty d ++ "d ago")%string
        else toLocaleDateString ts.

(** Lines 347-380: the list items put into the leaderboard element. *)
Record LbRow := mkLbRow {
  isNew : bool;               (* class is-new *)
  title : string;             (* tooltip *)
  rank : string;
  rankClass : option string;  (* rank-1, rank-2, rank-3 *)
  who : string;
  chipRound : string;
  chipAcc : string;
  chipMode : string;
  lbTime : string
}.

Inductive LbItem :=
| LbNote (text : string)
| LbEntry (row : LbRow).

Definition renderLeaderboard (toLocaleDateString toLocaleString : Z -> string)
    (now : Z) (w : World) : option (list LbItem) :=
  if negb (lbList (store w)) then None
  else
    let list := loadLeaderboard (store w) in
    if (length list =? 0)%nat then
      Some [LbNote (if storageOK (store w)
                    then "No scores yet — finish a game to record one!"
                    else "Storage disabled: scores are temporary.")]
    else
      Some (imap (fun i e =>
        LbEntry (mkLbRow
          (match lastAddedTs w with
           | Some t => negb (t =? 0)%Z && (Score.time e =? t)%Z
           | None => false
           end)
          (toLocaleString (Score.time e))
          (pretty (i + 1)%nat)
          (if (i <? 3)%nat then Some ("rank-" ++ pretty (i + 1)%nat)%string
           else None)
          (Score.name e)
          ("R" ++ pretty (Score.round e))%string
          (pretty (Math_round (js_or (Score.acc e) 0 * 100)) ++ "%")%string
          (if Score.strict e then "Strict" else "Normal")
          (formatRelativeTime toLocaleDateString now (Score.time e))))
        (take 10 list)).

(** Lines 283-288: the hint in the left panel. *)
Definition updateIdleHint (env : Env) : string :=
  if (0 <? String.length (playerName env))%nat then "Press Start to begin"
  else "Enter your name to start".

(** Lines 383-388: whether the main button is disabled. *)
Definition updateStartEnabled (env : Env) (s : State) : bool :=
  match mode s with
  | idle => negb (0 <? String.length (playerName env))%nat
  | _ => false
  end.

(** ** Vocabulary of the properties *)

(** The bit [recordResult] stores for an outcome. *)
Definition bit (ok : bool) : Z := if ok then 1%Z else 0%Z.

(** The last [n] elements of a list: what a FIFO window of capacity [n]
    holds after the list was pushed into it one element at a time. *)
Definition lastn {A} (n : nat) (l : list A) : list A := drop (length l - n) l.

(** A sequence of [recordResult] calls, first outcome first. *)
Definition record_all (oks : list bool) (s : State) : State :=
  foldl (fun s ok => recordResult ok s) s oks.

Definition correct_count (oks : list bool) : nat :=
  length (List.filter (fun ok => ok) oks).

Definition clamped (x : Z) : Prop := (50 <= x <= 2000)%Z.
Definition is_bit (x : Z) : Prop := x = 0%Z \/ x = 1%Z.

(** [a] may stand before [b] on the leaderboard: higher round, then higher
    accuracy, then later (or equal) time. *)
Definition ranks_before (a b : Score.t) : Prop :=
  (Score.round b < Score.round a)%nat \/
  (Score.round a = Score.round b /\ (Score.acc b < Score.acc a)%Q) \/
  (Score.round a = Score.round b /\ (Score.acc a == Score.acc b)%Q /\
   (Score.time b <= Score.time a)%Z).

(** Equal on all three sort keys. *)
Definition same_keys (a b : Score.t) : Prop :=
  Score.round a = Score.round b /\ (Score.acc a == Score.acc b)%Q /\
  Score.time a = Score.time b.

#[global] Instance same_keys_dec a b : Decision (same_keys a b).
Proof.
  unfold same_keys.
  destruct (decide (Score.round a = Score.round b));
  destruct (Qeq_dec (Score.acc a) (Score.acc b));
  destruct (decide (Score.time a = Score.time b));
  (left; tauto) || (right; tauto).
Defined.

(** What holds of the world in every reachable configuration. *)
Definition Inv (w : World) : Prop :=
  sequence (state w) < length (heap w) /\
  inputIndex (state w) <= length (seq_of w) /\
  (mode (state w) <> gameover -> completedRounds (state w) <= round (state w)) /\
  recentWindow (state w) = 20 /\
  rtWindow (state w) = 24 /\
  length (recent (state w)) <= 20 /\
  length (rts (state w)) <= 24 /\
  Forall clamped (rts (state w)) /\
  Forall is_bit (recent (state w)).







(** ** Concrete runs used below *)

Definition env_at (strict : bool) (now : Q) : Env :=
  mkEnv "Ada" strict (Some "medium"%string) now 1700000000000%Z 0.6%Q true.

(** Start a run and let the first round play back: sequence [[2]], shown
    for 580 ms, pads enabled at time 1460. *)
Definition script_round1 : list (Env * Event) :=
  [ (env_at false 0, MainButton);
    (env_at false 350, Resume 0);       (* nextRound *)
    (env_at false 800, Resume 0);       (* push, playback starts *)
    (env_at false 1380, Resume 0);      (* pad off *)
    (env_at false 1460, Resume 0) ].    (* gap over: pads enabled *)

(** One press on pad [index] arriving at time [now], with its feedback. *)
Definition script_press (strict : bool) (index : Z) (now : Q)
    : list (Env * Event) :=
  [ (env_at strict now, PointerDown index);
    (env_at strict (now + 150), Resume 0);
    (env_at strict (now + 230), Resume 0) ].

(** Round 1 reproduced, then the run ended with the main button. *)
Definition script_end_after_round1 : list (Env * Event) :=
  script_round1 ++ script_press false 2 1500 ++
  [ (env_at false 1800, MainButton);
    (env_at false 1920, Resume 1) ].    (* finalizeRun *)

(** Round 1, non-strict: a wrong pad, the replay, then the right pad. *)
Definition script_retry_round1 : list (Env * Event) :=
  script_round1 ++ script_press false 0 1500 ++
  [ (env_at false 2030, Resume 0);      (* replay starts, 675 ms a step *)
    (env_at false 2705, Resume 0);
    (env_at false 2785, Resume 0) ] ++  (* pads enabled at 2785 *)
  script_press false 2 2990.


(** Round 1 in strict mode, the right pad tapped twice within its feedback
    pause: both presses pass the guard before either is validated. *)
Definition script_double_press : list (Env * Event) :=
  script_round1 ++
  [ (env_at true 1500, PointerDown 2);
    (env_at true 1550, PointerDown 2);
    (env_at true 1650, Resume 0);       (* first press: pad off *)
    (env_at true 1700, Resume 0);       (* second press: pad off *)
    (env_at true 1730, Resume 0);       (* first press validated *)
    (env_at true 1780, Resume 0);       (* second press validated *)
    (env_at true 2100, Resume 1) ].     (* finalizeRun *)

(** Round 1 reproduced in strict mode; in round 2 a pad is pressed at 4200
    and the run is ended with the main button at 4250, within the feedback
    pause of the press. *)
Definition script_late_press : list (Env * Event) :=
  script_round1 ++ script_press true 2 1500 ++
  [ (env_at true 2380, Resume 0);       (* nextRound: round 2 *)
    (env_at true 2830, Resume 0);       (* push, playback starts, 478 ms a step *)
    (env_at true 3308, Resume 0);
    (env_at true 3388, Resume 0);
    (env_at true 3866, Resume 0);
    (env_at true 3946, Resume 0);       (* pads enabled *)
    (env_at true 4200, PointerDown 3);
    (env_at true 4250, MainButton);     (* end request *)
    (env_at true 4350, Resume 0);       (* the press: pad off *)
    (env_at true 4370, Resume 0);       (* finalizeRun *)
    (env_at true 4430, Resume 0);       (* the press validated *)
    (env_at true 4750, Resume 0) ].     (* finalizeRun, again *)

(** A run ended with the main button while its first playback lights the
    pad: the run is finalized at 1020, and the playback, finding its array
    exhausted at 1460, enables the pads. *)
Definition script_stale_enable : list (Env * Event) :=
  [ (env_at false 0, MainButton);
    (env_at false 350, Resume 0);       (* nextRound *)
    (env_at false 800, Resume 0);       (* push, playback starts *)
    (env_at false 900, MainButton);     (* end request *)
    (env_at false 1020, Resume 1);      (* finalizeRun *)
    (env_at false 1380, Resume 0);      (* pad off *)
    (env_at false 1460, Resume 0) ].    (* gap over: pads enabled *)

Definition config0 : Config := init true true None.

(** A world in round 5 with four rounds completed, ten correct answers out
    of eleven, waiting for the first input of the round. *)
Definition world_round5 : World :=
  mkWorld
    (mkState playing 0 true 0 5 false [1; 0; 1; 1; 1; 1; 1; 1; 1; 1; 1]%Z 20
       11 10 4 [400; 420; 380; 410; 390]%Z 1000%Q 24)
    [[0; 1; 2; 3; 0]%Z] (mkStore true true [] None) None [].

(** A store holding one score of round 5. *)
Definition store_one : Store :=
  mkStore true true []
    (Some [Score.mk "Bob" 5 0.9%Q false 100%Z]).

Ltac break_world w :=
  destruct w as [[m sq ac ii rd sh rc W ri rco cr rt pts rw] h st ts l].

Ltac nat_tests :=
  repeat match goal with
  | H : (_ <? _)%nat = true |- _ => apply Nat.ltb_lt in H
  | H : (_ <? _)%nat = false |- _ => apply Nat.ltb_ge in H
  | H : (_ =? _)%nat = true |- _ => apply Nat.eqb_eq in H
  | H : (_ =? _)%nat = false |- _ => apply Nat.eqb_neq in H
  end.

Ltac branches :=
  repeat match goal with
  | |- context [bool_decide ?P] => destruct (bool_decide_reflect P)
  | |- context [if ?b then _ else _] => destruct b eqn:?
  end.

(** ** Vocabulary of the further properties *)

(** How the run counters and the two flags stand to each other. *)
Definition Tally (s : State) : Prop :=
  runCorrect s <= runInputs s /\
  length (recent s) = Nat.min (runInputs s) 20 /\
  (showing s = true -> accepting s = false).

(** The continuations that call [finalizeRun]. *)
Definition finalizes (t : Task) : Prop := t = Ending \/ t = StrictEnd.

(** A leaderboard entry as a finished run produces it. *)
Definition entry_ok (e : Score.t) : Prop :=
  1 <= Score.round e /\ (0 <= Score.acc e <= 1)%Q /\ Score.name e <> ""%string.

(** A pad index. *)
Definition signal (x : Z) : Prop := (0 <= x < 4)%Z.

(** [Math.random()] returns a number in [0, 1). *)
Definition unit_random (env : Env) : Prop := (0 <= mathRandom env < 1)%Q.

(** Both places a leaderboard can be kept in satisfy [P]. *)
Definition Stored (P : list Score.t -> Prop) (st : Store) : Prop :=
  P (memLB st) /\ P (default [] (lsItem st)).

(** What the clear button leaves of the store. *)
Definition removeItem (st : Store) : Store :=
  mkStore (lbList st) (storageOK st) (memLB st) None.

(** The entry [finalizeRun] hands to [addScore]. *)
Definition final_entry (env : Env) (s : State) : Score.t :=
  Score.mk (playerName env) (completedRounds s)
    (if (runInputs s =? 0)%nat then 0%Q
     else (ofNat (runCorrect s) / ofNat (runInputs s))%Q)
    (strictChecked env) (dateNow env).

(** A leaderboard in ranking order and within the storage cap. *)
Definition ranked (l : list Score.t) : Prop :=
  StronglySorted ranks_before l /\ length l <= 200.

(** The checked tone radio does not carry the name of an inherited
    member: the lookup of the preset finds a preset. *)
Definition tone_plain (checked : option string) : Prop :=
  match checked with
  | Some v => v ∉ Object_prototype
  | None => True
  end.

(** What the properties use of the rounding of doubles: it is monotone
    and leaves the whole numbers up to 2^53 as they are. *)
Definition rounding (fl : Q -> Q) : Prop :=
  (forall x y, (x <= y)%Q -> (fl x <= fl y)%Q) /\
  (forall z : Z, (Z.abs z <= 2 ^ 53)%Z -> (fl (inject_Z z) == inject_Z z)%Q).

(** A rounding: downwards to a multiple of 1/1024. *)
Definition to_grid (x : Q) : Q := (Qfloor (x * 1024) # 1024)%Q.

(** The range of a playback step, in milliseconds. *)
Definition step_ok (dur : JsNum) : Prop :=
  match dur with
  | Num d => (200 <= d <= 828)%Q
  | NaN => False
  end.

Definition task_ok (t : Task) : Prop :=
  match t with
  | StepOn _ _ dur | StepGap _ _ dur => step_ok dur
  | _ => True
  end.

(** Every array holds pad indices, and every pad that was lit is one of the
    four pads, lit for a duration in range. *)
Definition Lit (w : World) : Prop :=
  Forall (Forall signal) (heap w) /\
  Forall (fun p => signal (fst p) /\ step_ok (snd p)) (lit w).

Definition Shown (c : Config) : Prop :=
  Lit (world c) /\ Forall task_ok (pending c).

(** ** Further runs *)

(** One press on pad [index] with its feedback, the three stretches of code
    seeing the environments [e]; and a series of such presses, each
    handled to its end before the next one arrives. *)
Definition press_events (index : Z) (e : Env * Env * Env) : list (Env * Event) :=
  [ (e.1.1, PointerDown index); (e.1.2, Resume 0); (e.2, Resume 0) ].

Definition presses (ps : list (Z * (Env * Env * Env))) : list (Env * Event) :=
  flat_map (fun p => press_events p.1 p.2) ps.

(** Round 1 reproduced in strict mode, a wrong pad in round 2, and the main
    button pressed while the strict ending is still pausing: both
    continuations that finalize are pending at once. *)
Definition script_two_endings : list (Env * Event) :=
  script_round1 ++ script_press true 2 1500 ++
  [ (env_at true 2380, Resume 0);       (* nextRound: round 2 *)
    (env_at true 2830, Resume 0);       (* push, playback starts, 478 ms a step *)
    (env_at true 3308, Resume 0);
    (env_at true 3388, Resume 0);
    (env_at true 3866, Resume 0);
    (env_at true 3946, Resume 0) ] ++   (* pads enabled *)
  script_press true 3 4200 ++           (* validated at 4430: ending at 4750 *)
  [ (env_at true 4500, MainButton) ].   (* end request: ending at 4620 *)

(** * Properties *)

(** ** StatsTracker: the accuracy window *)

Section AccuracyWindow.

Lemma recordResult_recent ok s :
  length (recent s) <= recentWindow s ->
  recent (recordResult ok s) = lastn (recentWindow s) (recent s ++ [bit ok]).
Proof.
  intros H. destruct s as [m sq ac ii rd sh rc W ri rco cr rt pts rw].
  cbn [recent recentWindow] in *.
  unfold recordResult, lastn, Array_shift; cbn [set_recent recent recentWindow].
  fold (bit ok).
  rewrite length_app; cbn [length].
  destruct (Nat.ltb_spec W (length rc + 1)) as [L|L].
  - replace (length rc + 1 - W) with 1 by lia. destruct ok; reflexivity.
  - replace (length rc + 1 - W) with 0 by lia. destruct ok; reflexivity.
Qed.

Lemma recordResult_recentWindow ok s :
  recentWindow (recordResult ok s) = recentWindow s.
Proof.
  destruct s. unfold recordResult. cbn.
  branches; reflexivity.
Qed.

Lemma recordResult_counters ok s :
  runInputs (recordResult ok s) = runInputs s + 1 /\
  runCorrect (recordResult ok s) = runCorrect s + (if ok then 1 else 0).
Proof.
  destruct s. unfold recordResult. cbn.
  branches; cbn; split; lia.
Qed.

Lemma length_lastn {A} n (l : list A) : length (lastn n l) <= n.
Proof. unfold lastn. rewrite length_drop. lia. Qed.

Lemma lastn_all {A} n (l : list A) : length l <= n -> lastn n l = l.
Proof. intros H. unfold lastn. replace (length l - n) with 0 by lia. reflexivity. Qed.

Lemma lastn_app_lastn {A} n (l k : list A) :
  lastn n (lastn n l ++ k) = lastn n (l ++ k).
Proof.
  destruct (Nat.le_gt_cases (length l) n) as [L|L].
  - rewrite (lastn_all n l) by exact L. reflexivity.
  - unfold lastn. rewrite !length_app, length_drop.
    rewrite <- (drop_app_le l k (length l - n)) by lia.
    rewrite drop_drop. f_equal. lia.
Qed.

Lemma record_all_recent oks : forall s,
  length (recent s) <= recentWindow s ->
  recentWindow (record_all oks s) = recentWindow s /\
  recent (record_all oks s) = lastn (recentWindow s) (recent s ++ map bit oks).
Proof.
  induction oks as [|ok oks IH]; intros s H.
  - cbn. rewrite app_nil_r, lastn_all by exact H. auto.
  - change (record_all (ok :: oks) s) with (record_all oks (recordResult ok s)).
    pose proof (recordResult_recent ok s H) as R.
    pose proof (recordResult_recentWindow ok s) as W.
    destruct (IH (recordResult ok s)) as [IW IR].
    { rewrite R, W. apply length_lastn. }
    rewrite IW, IR, W, R. split; [reflexivity|].
    rewrite lastn_app_lastn, <- app_assoc. reflexivity.
Qed.

(** C10: however many results are recorded, the accuracy window never holds
    more than [recentWindow] = 20 bits; it holds the most recent ones in
    order, so an overflowing push evicts exactly the oldest bit. *)
Theorem recordResult_window_fifo (s : State) (oks : list bool) :
  recentWindow s = 20 ->
  length (recent s) <= 20 ->
  length (recent (record_all oks s)) <= 20 /\
  recent (record_all oks s) = lastn 20 (recent s ++ map bit oks) /\
  (forall ok oldest rest,
     recent s = oldest :: rest -> length (recent s) = 20 ->
     recent (recordResult ok s) = rest ++ [bit ok]).
Proof.
  intros W L.
  destruct (record_all_recent oks s) as [_ R]; [lia|].
  rewrite W in R. split; [|split].
  - rewrite R. apply length_lastn.
  - exact R.
  - intros ok oldest rest E F.
    rewrite recordResult_recent by lia. rewrite W, E in *.
    unfold lastn. rewrite length_app. cbn [length] in *.
    replace (S (length rest) + 1 - 20) with 1 by lia. reflexivity.
Qed.

Lemma recordResult_window_fifo_witness :
  recent (record_all (repeat true 20 ++ [false; true]) state0)
  = repeat 1%Z 18 ++ [0; 1]%Z.
Proof.
  rewrite (proj1 (proj2 (recordResult_window_fifo state0
             (repeat true 20 ++ [false; true]) eq_refl (Nat.le_0_l 20)))).
  reflexivity.
Defined.

Lemma sum_bits oks :
  fold_left Z.add (map bit oks) 0%Z = Z.of_nat (correct_count oks).
Proof.
  unfold correct_count.
  assert (G : forall a, fold_left Z.add (map bit oks) a
              = (a + Z.of_nat (length (List.filter (fun ok => ok) oks)))%Z).
  { induction oks as [|[] oks IH]; intros a; cbn [map fold_left List.filter length].
    - lia.
    - rewrite IH. cbn [bit length]. lia.
    - rewrite IH. cbn [bit]. lia. }
  rewrite G. lia.
Qed.

(** C9: on an empty window [getRecentAccuracy] is exactly 0.85; after [k]
    results were recorded into it, [c] of them correct and [k] within the
    window size, it is [c / k]. *)
Theorem getRecentAccuracy_spec (s : State) (oks : list bool) :
  recent s = [] ->
  length oks <= recentWindow s ->
  getRecentAccuracy s = 0.85%Q /\
  (oks <> [] ->
   getRecentAccuracy (record_all oks s)
   = (ofNat (correct_count oks) / ofNat (length oks))%Q).
Proof.
  intros E L. split.
  - unfold getRecentAccuracy. rewrite E. reflexivity.
  - intros N. destruct (record_all_recent oks s) as [_ R]; [rewrite E; cbn; lia|].
    rewrite E in R. cbn [app] in R.
    rewrite lastn_all in R by (rewrite length_map; exact L).
    unfold getRecentAccuracy. rewrite R, length_map, sum_bits.
    destruct oks; [contradiction|]. reflexivity.
Qed.

Lemma getRecentAccuracy_spec_witness :
  getRecentAccuracy (record_all [true; false; true; true] state0)
  = (ofNat 3 / ofNat 4)%Q.
Proof.
  refine (proj2 (getRecentAccuracy_spec state0 [true; false; true; true]
                   eq_refl _) _).
  - cbn. lia.
  - discriminate.
Defined.

Lemma sum_bits_range l :
  Forall is_bit l ->
  (0 <= fold_left Z.add l 0 <= Z.of_nat (length l))%Z.
Proof.
  intros F.
  assert (G : forall a, (a <= fold_left Z.add l a <= a + Z.of_nat (length l))%Z).
  { induction F as [|x l [->| ->] _ IH]; intros a; cbn [fold_left length].
    - lia.
    - specialize (IH (a + 0)%Z). lia.
    - specialize (IH (a + 1)%Z). lia. }
  specialize (G 0%Z). lia.
Qed.

(** With a window of bits the recent accuracy lies in [0,1]. *)
Lemma getRecentAccuracy_range s :
  Forall is_bit (recent s) -> (0 <= getRecentAccuracy s <= 1)%Q.
Proof.
  intros F. unfold getRecentAccuracy.
  destruct (Nat.eqb_spec (length (recent s)) 0) as [E|N].
  - split; unfold Qle; cbn; lia.
  - pose proof (sum_bits_range _ F) as [L U].
    assert (P : (0 < ofNat (length (recent s)))%Q).
    { unfold ofNat. change 0%Q with (inject_Z 0). rewrite <- Zlt_Qlt. lia. }
    split.
    + apply Qle_shift_div_l; [exact P|]. rewrite Qmult_0_l.
      change 0%Q with (inject_Z 0). rewrite <- Zle_Qle. exact L.
    + apply Qle_shift_div_r; [exact P|]. rewrite Qmult_1_l.
      unfold ofNat. rewrite <- Zle_Qle. exact U.
Qed.

End AccuracyWindow.

(** ** Pacer *)

Section Pacer.
Local Open Scope Q_scope.

Lemma PRESETS_lookup sel p :
  PRESETS !! sel = Some p ->
  stepMul p = 0.85 \/ stepMul p = 1.00 \/ stepMul p = 1.15.
Proof.
  unfold PRESETS. intros E.
  apply lookup_insert_Some in E as [[_ <-]|[_ E]]; [left; reflexivity|].
  apply lookup_insert_Some in E as [[_ <-]|[_ E]]; [right; left; reflexivity|].
  apply lookup_singleton_Some in E as [_ <-]. right; right; reflexivity.
Qed.

(** A preset that is found is one of the table. *)
Lemma currentPreset_Some checked p :
  currentPreset checked = Some p ->
  stepMul p = 0.85 \/ stepMul p = 1.00 \/ stepMul p = 1.15.
Proof.
  unfold currentPreset.
  set (sel := match checked with Some v => _ | None => _ end).
  destruct (PRESETS !! sel) as [q|] eqn:E.
  - intros H. injection H as <-. eapply PRESETS_lookup, E.
  - case_bool_decide; [discriminate|]. apply PRESETS_lookup.
Qed.

(** The three own keys select their presets. *)
Lemma currentPreset_own :
  currentPreset (Some "short"%string) = Some (mkPreset 120 0.85) /\
  currentPreset (Some "medium"%string) = Some (mkPreset 150 1.00) /\
  currentPreset (Some "long"%string) = Some (mkPreset 220 1.15).
Proof. repeat split; vm_compute; reflexivity. Qed.

(** No radio checked, an empty value, or a value that names nothing: the
    result is [medium]. *)
Lemma currentPreset_fallback checked :
  checked = None \/ checked = Some ""%string \/
  (exists v, checked = Some v /\ PRESETS !! v = None /\ v ∉ Object_prototype) ->
  currentPreset checked = Some (mkPreset 150 1.00).
Proof.
  intros [-> |[-> |(v & -> & E & N)]]; try (vm_compute; reflexivity).
  unfold currentPreset. case_bool_decide as V.
  - subst v. vm_compute. reflexivity.
  - rewrite E. rewrite bool_decide_eq_false_2 by exact N.
    vm_compute. reflexivity.
Qed.

(** A value that names an inherited member finds that member. *)
Lemma currentPreset_inherited v :
  v ∈ Object_prototype -> currentPreset (Some v) = None.
Proof.
  intros I. unfold currentPreset.
  pose proof I as J. apply list_elem_of_In in J. cbn in J.
  assert (N : v <> ""%string) by (intros ->; intuition discriminate).
  rewrite bool_decide_eq_false_2 by exact N.
  assert (E : PRESETS !! v = None).
  { unfold PRESETS.
    repeat (rewrite lookup_insert_ne by (intros <-; intuition discriminate)).
    apply lookup_singleton_ne. intros <-. intuition discriminate. }
  rewrite E, bool_decide_eq_true_2 by exact I. reflexivity.
Qed.

Lemma medium_plain : "medium"%string ∉ Object_prototype.
Proof. intros I. apply list_elem_of_In in I. cbn in I. intuition discriminate. Qed.

(** With a plain radio value a preset is found. *)
Lemma currentPreset_plain checked :
  tone_plain checked -> exists p, currentPreset checked = Some p.
Proof.
  intros T. unfold currentPreset.
  set (sel := match checked with Some v => _ | None => _ end).
  destruct (PRESETS !! sel) as [q|] eqn:E; [eauto|].
  assert (N : sel ∉ Object_prototype).
  { unfold sel. destruct checked as [v|]; cbn in T; [|apply medium_plain].
    case_bool_decide; [apply medium_plain|exact T]. }
  rewrite bool_decide_eq_false_2 by exact N. eexists. vm_compute. reflexivity.
Qed.

Lemma ofNat_le (r r' : nat) : (r <= r')%nat -> ofNat r <= ofNat r'.
Proof. intros H. unfold ofNat. rewrite <- Zle_Qle. lia. Qed.

Lemma ofNat_lt (a b : nat) : (a < b)%nat -> ofNat a < ofNat b.
Proof. intros H. unfold ofNat. rewrite <- Zlt_Qlt. lia. Qed.

Lemma stepDurationOf_min a m r : 200 <= stepDurationOf a m r.
Proof. unfold stepDurationOf. apply Q.le_max_l. Qed.

Lemma stepDurationOf_mono_round a m r r' :
  0 <= m -> (r <= r')%nat -> stepDurationOf a m r' <= stepDurationOf a m r.
Proof.
  intros Hm Hr. unfold stepDurationOf.
  apply Q.max_le_compat_l. apply Qmult_le_compat_r; [|exact Hm].
  pose proof (ofNat_le _ _ Hr). lra.
Qed.

Lemma stepDurationOf_mono_acc a a' m r :
  0 <= m -> a <= a' -> stepDurationOf a' m r <= stepDurationOf a m r.
Proof.
  intros Hm Ha. unfold stepDurationOf.
  apply Q.max_le_compat_l. apply Qmult_le_compat_r; [|exact Hm].
  assert (Qmax 0 (a - 0.60) <= Qmax 0 (a' - 0.60)).
  { apply Q.max_le_compat_l. lra. }
  lra.
Qed.

Lemma stepDurationOf_compat a a' m m' r :
  a == a' -> m == m' -> stepDurationOf a m r == stepDurationOf a' m' r.
Proof.
  intros Ea Em. unfold stepDurationOf.
  apply Q.max_compat; [reflexivity|].
  assert (B : Qmax 0 (a - 0.60) == Qmax 0 (a' - 0.60)).
  { apply Q.max_compat; [reflexivity|]. rewrite Ea. reflexivity. }
  rewrite B, Em. reflexivity.
Qed.

(** C3: for a round [r], a recent accuracy [a] in [0,1] and a preset
    multiplier [m] of 0.85, 1.00 or 1.15, the step duration is
    [max(200, (720 - 45 r - max(0, a - 0.60) 380) m)]; it is at least 200,
    does not increase with the round, and does not increase with the
    accuracy above 0.6.  [stepDuration] returns this value at the accuracy
    of the window when the checked radio selects the preset of that
    multiplier: [short] for 0.85, [medium] for 1.00, [long] for 1.15, and
    also, for 1.00, when no radio is checked or its value is empty or names
    nothing.  (A value that names an inherited member of the table is no
    preset: the multiplier is [undefined] and the result [NaN].) *)
Theorem stepDuration_spec (r : nat) (a m : Q) :
  0 <= a <= 1 ->
  m == 0.85 \/ m == 1.00 \/ m == 1.15 ->
  stepDurationOf a m r
    == Qmax 200 ((720 - 45 * ofNat r - Qmax 0 (a - 0.60) * 380) * m) /\
  200 <= stepDurationOf a m r /\
  (forall r', (r <= r')%nat -> stepDurationOf a m r' <= stepDurationOf a m r) /\
  (forall a', 0.6 < a -> a <= a' -> a' <= 1 ->
     stepDurationOf a' m r <= stepDurationOf a m r) /\
  (forall s name,
     getRecentAccuracy s == a ->
     (name = "short"%string /\ m == 0.85) \/
     (name = "medium"%string /\ m == 1.00) \/
     (name = "long"%string /\ m == 1.15) ->
     exists d, stepDuration (Some name) s r = Num d /\
               d == stepDurationOf a m r) /\
  (forall s checked,
     getRecentAccuracy s == a -> m == 1.00 ->
     checked = None \/ checked = Some ""%string \/
     (exists v, checked = Some v /\ v <> "short"%string /\
                v <> "medium"%string /\ v <> "long"%string /\
                v ∉ Object_prototype) ->
     exists d, stepDuration checked s r = Num d /\
               d == stepDurationOf a m r) /\
  (forall s v, v ∈ Object_prototype -> stepDuration (Some v) s r = NaN).
Proof.
  intros Ha Hm.
  assert (M : 0 <= m) by (destruct Hm as [E|[E|E]]; rewrite E; lra).
  destruct currentPreset_own as (Ps & Pm & Pl).
  repeat split.
  - unfold stepDurationOf. apply Q.max_compat; [reflexivity|]. ring.
  - apply stepDurationOf_min.
  - intros r' Hr. apply stepDurationOf_mono_round; assumption.
  - intros a' _ Le _. apply stepDurationOf_mono_acc; assumption.
  - intros s name Ea [[-> Em]|[[-> Em]|[-> Em]]]; unfold stepDuration;
      rewrite ?Ps, ?Pm, ?Pl; eexists; (split; [reflexivity|]);
      apply stepDurationOf_compat; [exact Ea|symmetry; exact Em
                                   |exact Ea|symmetry; exact Em
                                   |exact Ea|symmetry; exact Em].
  - intros s checked Ea Em C. unfold stepDuration.
    rewrite currentPreset_fallback.
    + eexists. split; [reflexivity|].
      apply stepDurationOf_compat; [exact Ea|symmetry; exact Em].
    + destruct C as [C|[C|(v & C & N1 & N2 & N3 & NI)]]; auto.
      right. right. exists v. split; [exact C|]. split; [|exact NI].
      unfold PRESETS. rewrite !lookup_insert_ne by congruence.
      apply lookup_singleton_ne. congruence.
  - intros s v I. unfold stepDuration.
    rewrite currentPreset_inherited by exact I. reflexivity.
Qed.

Lemma stepDuration_spec_witness :
  (exists d,
     stepDuration (Some "short"%string)
       (record_all [true; true; true; false] state0) 3 = Num d /\
     d == stepDurationOf 0.75 0.85 3) /\
  200 <= stepDurationOf 0.75 0.85 3 /\
  stepDurationOf 0.75 0.85 9 <= stepDurationOf 0.75 0.85 3.
Proof.
  assert (A : 0 <= 0.75 <= 1) by (split; unfold Qle; cbn; lia).
  assert (P : 0.85 == 0.85 \/ 0.85 == 1.00 \/ 0.85 == 1.15) by (left; reflexivity).
  destruct (stepDuration_spec 3 0.75 0.85 A P) as (_ & Min & MonoR & _ & At & _).
  split; [|split].
  - apply At.
    + vm_compute. reflexivity.
    + left. split; reflexivity.
  - exact Min.
  - apply MonoR. lia.
Defined.

End Pacer.

(** ** LeaderboardRanker *)

Section Leaderboard.

Lemma js_or_zero a b : (a == 0)%Q -> js_or a b = b.
Proof. intros H. unfold js_or. apply Qeq_bool_iff in H. rewrite H. reflexivity. Qed.

Lemma js_or_nonzero a b : ~ (a == 0)%Q -> js_or a b = a.
Proof.
  intros H. unfold js_or. destruct (Qeq_bool a 0) eqn:E; [|reflexivity].
  apply Qeq_bool_iff in E. contradiction.
Qed.

(** The sign of the comparator, key by key. *)
Lemma cmpScore_cases a b :
  ((Score.round a < Score.round b)%nat /\ (0 < cmpScore a b)%Q) \/
  ((Score.round b < Score.round a)%nat /\ (cmpScore a b < 0)%Q) \/
  (Score.round a = Score.round b /\
   (((Score.acc a < Score.acc b)%Q /\ (0 < cmpScore a b)%Q) \/
    ((Score.acc b < Score.acc a)%Q /\ (cmpScore a b < 0)%Q) \/
    ((Score.acc a == Score.acc b)%Q /\
     cmpScore a b = inject_Z (Score.time b - Score.time a)))).
Proof.
  unfold cmpScore.
  destruct (lt_eq_lt_dec (Score.round a) (Score.round b)) as [[L|E]|L].
  - left. split; [exact L|]. apply ofNat_lt in L.
    rewrite (js_or_nonzero (ofNat _ - ofNat _)) by lra.
    rewrite js_or_nonzero by lra. lra.
  - right; right. split; [exact E|]. rewrite E.
    rewrite (js_or_zero (ofNat _ - ofNat _)) by lra.
    destruct (Q_dec (Score.acc a) (Score.acc b)) as [[L|L]|Q].
    + left. split; [exact L|]. rewrite js_or_nonzero by lra. lra.
    + right; left. split; [exact L|]. rewrite js_or_nonzero by lra. lra.
    + right; right. split; [exact Q|]. rewrite js_or_zero by lra. reflexivity.
  - right; left. split; [exact L|]. apply ofNat_lt in L.
    rewrite (js_or_nonzero (ofNat _ - ofNat _)) by lra.
    rewrite js_or_nonzero by lra. lra.
Qed.

Lemma inject_Z_pos z : (0 < inject_Z z)%Q <-> (0 < z)%Z.
Proof. change 0%Q with (inject_Z 0). rewrite <- Zlt_Qlt. reflexivity. Qed.

Lemma inject_Z_nonpos z : (inject_Z z <= 0)%Q <-> (z <= 0)%Z.
Proof. change 0%Q with (inject_Z 0). rewrite <- Zle_Qle. reflexivity. Qed.

(** [sort] moves [a] behind [b] exactly when [a] may not stand before [b]. *)
Lemma cmpScore_pos a b : (0 < cmpScore a b)%Q <-> ~ ranks_before a b.
Proof.
  unfold ranks_before.
  destruct (cmpScore_cases a b) as [[L C]|[[L C]|[E [[L C]|[[L C]|[Q C]]]]]].
  - split; [|tauto]. intros _ [H|[[H _]|[H _]]]; lia.
  - split; [lra|]. intros H; exfalso; apply H; left; exact L.
  - split; [|tauto]. intros _ [H|[[_ H]|[_ [H _]]]]; [lia|lra|lra].
  - split; [lra|]. intros H; exfalso; apply H; right; left; split; assumption.
  - rewrite C, inject_Z_pos. split.
    + intros H [H1|[[_ H1]|[_ [_ H1]]]]; [lia|lra|lia].
    + intros H. destruct (Z_lt_le_dec 0 (Score.time b - Score.time a)); [assumption|].
      exfalso; apply H. right; right. repeat split; [assumption..|lia].
Qed.

Lemma cmpScore_nonpos a b : (cmpScore a b <= 0)%Q <-> ranks_before a b.
Proof.
  unfold ranks_before.
  destruct (cmpScore_cases a b) as [[L C]|[[L C]|[E [[L C]|[[L C]|[Q C]]]]]].
  - split; [lra|]. intros [H|[[H _]|[H _]]]; lia.
  - split; [tauto|]. intros _; lra.
  - split; [lra|]. intros [H|[[_ H]|[_ [H _]]]]; [lia|lra|lra].
  - split; [tauto|]. intros _; lra.
  - rewrite C, inject_Z_nonpos. split.
    + intros H. right; right. repeat split; [assumption..|lia].
    + intros [H1|[[_ H1]|[_ [_ H1]]]]; [lia|lra|lia].
Qed.

Lemma ranks_before_trans a b c :
  ranks_before a b -> ranks_before b c -> ranks_before a c.
Proof.
  unfold ranks_before.
  intros [H1|[[E1 H1]|[E1 [Q1 H1]]]] [H2|[[E2 H2]|[E2 [Q2 H2]]]];
    try (left; lia);
    try (right; left; split; [lia|lra]).
  right; right. repeat split; [lia|lra|lia].
Qed.

Lemma ranks_before_total a b : ranks_before a b \/ ranks_before b a.
Proof.
  unfold ranks_before.
  destruct (lt_eq_lt_dec (Score.round a) (Score.round b)) as [[L|E]|L];
    [tauto| |tauto].
  pose proof (eq_sym E) as E'.
  destruct (Q_dec (Score.acc a) (Score.acc b)) as [[L|L]|Q]; [tauto|tauto|].
  destruct (Z_le_gt_dec (Score.time b) (Score.time a)).
  - left; right; right. tauto.
  - right; right; right. repeat split; [lia|lra|lia].
Qed.

Lemma ranks_before_antisym a b :
  ranks_before a b -> ranks_before b a -> same_keys a b.
Proof.
  unfold ranks_before, same_keys.
  intros [H1|[[E1 H1]|[E1 [Q1 H1]]]] [H2|[[E2 H2]|[E2 [Q2 H2]]]];
    try lia; try lra.
  repeat split; [lia|lra|lia].
Qed.

Lemma same_keys_ranks a b : same_keys a b -> ranks_before a b.
Proof. intros (E & Q & T). right; right. repeat split; [assumption..|lia]. Qed.

Lemma same_keys_refl a : same_keys a a.
Proof. repeat split; reflexivity. Qed.

Lemma same_keys_sym a b : same_keys a b -> same_keys b a.
Proof. intros (E & Q & T). repeat split; [lia|lra|lia]. Qed.

Lemma same_keys_trans a b c : same_keys a b -> same_keys b c -> same_keys a c.
Proof. intros (E & Q & T) (E' & Q' & T'). repeat split; [lia|lra|lia]. Qed.

Lemma same_keys_not_behind k x y :
  same_keys k x -> ~ ranks_before x y -> ~ same_keys k y.
Proof.
  intros Hk Hn Hy. apply Hn. apply same_keys_ranks.
  eapply same_keys_trans; [apply same_keys_sym; exact Hk|exact Hy].
Qed.

End Leaderboard.

Section Sorting.

Lemma sort_insert_elem x y l :
  y ∈ sort_insert cmpScore x l <-> y = x \/ y ∈ l.
Proof.
  induction l as [|z l IH]; cbn.
  - rewrite list_elem_of_singleton, elem_of_nil. tauto.
  - destruct (Qlt_le_dec 0 (cmpScore x z)).
    + rewrite !elem_of_cons, IH. tauto.
    + rewrite !elem_of_cons. tauto.
Qed.

Lemma sort_insert_perm x l : sort_insert cmpScore x l ≡ₚ x :: l.
Proof.
  induction l as [|z l IH]; cbn; [reflexivity|].
  destruct (Qlt_le_dec 0 (cmpScore x z)); [|reflexivity].
  rewrite IH. apply perm_swap.
Qed.

Lemma Array_sort_perm l : Array_sort cmpScore l ≡ₚ l.
Proof.
  unfold Array_sort. induction l as [|x l IH]; cbn [foldr]; [reflexivity|].
  rewrite sort_insert_perm, IH. reflexivity.
Qed.

Lemma sort_insert_sorted x l :
  StronglySorted ranks_before l ->
  StronglySorted ranks_before (sort_insert cmpScore x l).
Proof.
  induction 1 as [|z l S IH F]; cbn.
  - repeat constructor.
  - destruct (Qlt_le_dec 0 (cmpScore x z)) as [P|N].
    + constructor; [exact IH|].
      apply Forall_forall. intros y Hy.
      apply sort_insert_elem in Hy as [->|Hy].
      * apply cmpScore_pos in P. destruct (ranks_before_total z x); tauto.
      * rewrite Forall_forall in F. auto.
    + assert (R : ranks_before x z) by (apply cmpScore_nonpos, N).
      constructor; [constructor; assumption|].
      constructor; [exact R|].
      eapply Forall_impl; [exact F|]. intros y. apply ranks_before_trans, R.
Qed.

Lemma Array_sort_sorted l : StronglySorted ranks_before (Array_sort cmpScore l).
Proof.
  unfold Array_sort. induction l as [|x l IH]; cbn [foldr]; [constructor|].
  apply sort_insert_sorted, IH.
Qed.

(** Stability: inserting never carries an entry over one with the same keys. *)
Lemma sort_insert_filter k x l :
  filter (same_keys k) (sort_insert cmpScore x l)
  = filter (same_keys k) (x :: l).
Proof.
  induction l as [|z l IH]; cbn; [reflexivity|].
  destruct (Qlt_le_dec 0 (cmpScore x z)) as [P|N]; [|reflexivity].
  rewrite filter_cons, IH, !filter_cons.
  destruct (decide (same_keys k x)) as [Kx|Kx]; [|reflexivity].
  assert (Kz : ~ same_keys k z).
  { eapply same_keys_not_behind; [exact Kx|]. apply cmpScore_pos, P. }
  repeat case_decide; try contradiction; reflexivity.
Qed.

Lemma Array_sort_filter k l :
  filter (same_keys k) (Array_sort cmpScore l) = filter (same_keys k) l.
Proof.
  unfold Array_sort. induction l as [|x l IH]; cbn [foldr]; [reflexivity|].
  rewrite sort_insert_filter, !filter_cons, IH. reflexivity.
Qed.

Lemma StronglySorted_lookup {A} (R : A -> A -> Prop) (l : list A) :
  StronglySorted R l ->
  forall i j a b, l !! i = Some a -> l !! j = Some b -> i < j -> R a b.
Proof.
  induction 1 as [|x l S IH F]; intros i j a b Hi Hj Hlt.
  - rewrite lookup_nil in Hi. discriminate.
  - destruct j as [|j]; [lia|]. destruct i as [|i]; cbn in Hi, Hj.
    + injection Hi as <-. eapply Forall_lookup_1; eassumption.
    + eapply IH; [exact Hi|exact Hj|lia].
Qed.

Lemma filter_take_prefix {A} (P : A -> Prop) `{forall x, Decision (P x)}
    n (l : list A) :
  filter P (take n l) `prefix_of` filter P l.
Proof.
  exists (filter P (drop n l)). rewrite <- filter_app, take_drop. reflexivity.
Qed.

Lemma addScore_load env name round acc strict t st :
  lbList st = true -> name <> ""%string ->
  storageOK st = false \/ setItemOk env = true ->
  loadLeaderboard (addScore env name round acc strict t st)
  = take 200 (Array_sort cmpScore
      (loadLeaderboard st
       ++ [Score.mk name round acc strict (default (dateNow env) t)])).
Proof.
  intros Lb Nm Ok. unfold addScore. rewrite Lb. cbn [negb orb].
  rewrite bool_decide_eq_false_2 by exact Nm.
  unfold saveLeaderboard. rewrite Lb. cbn [negb].
  destruct (storageOK st) eqn:S; cbn [negb].
  - destruct Ok as [Ok|Ok]; [discriminate|]. rewrite Ok.
    unfold loadLeaderboard at 1. cbn. reflexivity.
  - unfold loadLeaderboard at 1. cbn. reflexivity.
Qed.

(** C5: after a score is inserted, the stored list is the old list with the
    new entry appended, sorted and cut to 200.  An entry stands before
    another only if its round is higher, or the rounds are equal and its
    accuracy is higher, or both are equal and its time is not earlier; for
    two entries that differ in some key this is an equivalence; entries
    equal on all three keys, for which the condition holds both ways, keep
    the order they had before the sort. *)
Theorem addScore_ranking env name round acc strict t st :
  lbList st = true -> name <> ""%string ->
  storageOK st = false \/ setItemOk env = true ->
  let before :=
    loadLeaderboard st
    ++ [Score.mk name round acc strict (default (dateNow env) t)] in
  let after := loadLeaderboard (addScore env name round acc strict t st) in
  after = take 200 (Array_sort cmpScore before) /\
  (forall i j A B, after !! i = Some A -> after !! j = Some B ->
     i < j -> ranks_before A B) /\
  (forall i j A B, after !! i = Some A -> after !! j = Some B ->
     ~ same_keys A B -> (i < j <-> ranks_before A B)) /\
  (forall K, filter (same_keys K) after `prefix_of` filter (same_keys K) before) /\
  (length before <= 200 ->
     after ≡ₚ before /\
     forall K, filter (same_keys K) after = filter (same_keys K) before).
Proof.
  intros Lb Nm Ok before after.
  assert (E : after = take 200 (Array_sort cmpScore before))
    by (apply addScore_load; assumption).
  assert (S : forall i j A B, after !! i = Some A -> after !! j = Some B ->
                i < j -> ranks_before A B).
  { intros i j A B Hi Hj Hlt. rewrite E in Hi, Hj.
    apply lookup_take_Some in Hi as [Hi _]. apply lookup_take_Some in Hj as [Hj _].
    eapply StronglySorted_lookup; [apply Array_sort_sorted|exact Hi|exact Hj|exact Hlt]. }
  split; [exact E|]. split; [exact S|]. split; [|split].
  - intros i j A B Hi Hj N. split; [apply S; assumption|]. intros R.
    destruct (lt_eq_lt_dec i j) as [[L|Eq]|L]; [exact L| |].
    + exfalso. subst j. rewrite Hi in Hj. injection Hj as <-.
      apply N, same_keys_refl.
    + exfalso. apply N, ranks_before_antisym; [exact R|].
      eapply S; [exact Hj|exact Hi|exact L].
  - intros K. rewrite E, <- (Array_sort_filter K before).
    apply filter_take_prefix.
  - intros Len.
    assert (F : after = Array_sort cmpScore before).
    { rewrite E. apply take_ge. rewrite Array_sort_perm. exact Len. }
    rewrite F. split; [apply Array_sort_perm|]. intros K. apply Array_sort_filter.
Qed.

Lemma addScore_ranking_witness :
  loadLeaderboard
    (addScore (env_at false 0) "Ada" 5 0.9%Q false (Some 200%Z) store_one)
  = [Score.mk "Ada" 5 0.9%Q false 200%Z; Score.mk "Bob" 5 0.9%Q false 100%Z].
Proof.
  assert (Nm : "Ada"%string <> ""%string) by discriminate.
  rewrite (proj1 (addScore_ranking (env_at false 0) "Ada" 5 0.9%Q false
                    (Some 200%Z) store_one eq_refl Nm (or_intror eq_refl))).
  vm_compute. reflexivity.
Defined.

End Sorting.

(** ** GameEngine: what every reachable configuration satisfies *)

(** The boolean tests of the source stay folded when goals are simplified. *)
Arguments Nat.ltb : simpl never.
Arguments Nat.eqb : simpl never.

Section Keys.

(** A key on a focused pad: the listener of the pad, and for Enter the
    listener of the document after it. *)
Lemma fire_PadKeyDown_world env key index c :
  world (fire env (PadKeyDown key index) c)
  = match key with
    | Enter => fst (onMainButton env (world c))
    | Space => world c
    end.
Proof. cbn [fire]. unfold handlePadPress. destruct key, (_ || _); reflexivity. Qed.


End Keys.

Section Heap.

Lemma deref_new h : deref (length h) (h ++ [[]]) = [].
Proof. unfold deref. rewrite lookup_app_r, Nat.sub_diag by lia. reflexivity. Qed.

Lemma deref_push r x h :
  r < length h -> deref r (alter (fun a => a ++ [x]) r h) = deref r h ++ [x].
Proof.
  intros H. unfold deref. rewrite list_lookup_alter_eq.
  destruct (lookup_lt_is_Some_2 h r H) as [a ->]. reflexivity.
Qed.

End Heap.

(** [recordResult] touches the window and the two counters, [pushReaction]
    the reaction history; every other field of the state is left alone. *)
Section Frames.

Ltac frame :=
  intros; match goal with s : State |- _ => destruct s end;
  unfold recordResult, pushReaction; cbn; branches; reflexivity.

Lemma recordResult_mode ok s : mode (recordResult ok s) = mode s.
Proof. frame. Qed.

Lemma recordResult_sequence ok s : sequence (recordResult ok s) = sequence s.
Proof. frame. Qed.

Lemma recordResult_accepting ok s :
  accepting (recordResult ok s) = accepting s.
Proof. frame. Qed.

Lemma recordResult_inputIndex ok s :
  inputIndex (recordResult ok s) = inputIndex s.
Proof. frame. Qed.

Lemma recordResult_round ok s : round (recordResult ok s) = round s.
Proof. frame. Qed.

Lemma recordResult_showing ok s : showing (recordResult ok s) = showing s.
Proof. frame. Qed.

Lemma recordResult_completedRounds ok s :
  completedRounds (recordResult ok s) = completedRounds s.
Proof. frame. Qed.

Lemma recordResult_rts ok s : rts (recordResult ok s) = rts s.
Proof. frame. Qed.

Lemma recordResult_padEnableTs ok s :
  padEnableTs (recordResult ok s) = padEnableTs s.
Proof. frame. Qed.

Lemma recordResult_rtWindow ok s : rtWindow (recordResult ok s) = rtWindow s.
Proof. frame. Qed.

Lemma pushReaction_mode ms s : mode (pushReaction ms s) = mode s.
Proof. frame. Qed.

Lemma pushReaction_sequence ms s : sequence (pushReaction ms s) = sequence s.
Proof. frame. Qed.

Lemma pushReaction_accepting ms s :
  accepting (pushReaction ms s) = accepting s.
Proof. frame. Qed.

Lemma pushReaction_inputIndex ms s :
  inputIndex (pushReaction ms s) = inputIndex s.
Proof. frame. Qed.

Lemma pushReaction_round ms s : round (pushReaction ms s) = round s.
Proof. frame. Qed.

Lemma pushReaction_showing ms s : showing (pushReaction ms s) = showing s.
Proof. frame. Qed.

Lemma pushReaction_recent ms s : recent (pushReaction ms s) = recent s.
Proof. frame. Qed.

Lemma pushReaction_recentWindow ms s :
  recentWindow (pushReaction ms s) = recentWindow s.
Proof. frame. Qed.

Lemma pushReaction_runInputs ms s :
  runInputs (pushReaction ms s) = runInputs s.
Proof. frame. Qed.

Lemma pushReaction_runCorrect ms s :
  runCorrect (pushReaction ms s) = runCorrect s.
Proof. frame. Qed.

Lemma pushReaction_completedRounds ms s :
  completedRounds (pushReaction ms s) = completedRounds s.
Proof. frame. Qed.

Lemma pushReaction_padEnableTs ms s :
  padEnableTs (pushReaction ms s) = padEnableTs s.
Proof. frame. Qed.

Lemma pushReaction_rtWindow ms s : rtWindow (pushReaction ms s) = rtWindow s.
Proof. frame. Qed.

Lemma recordResult_runInputs ok s :
  runInputs (recordResult ok s) = runInputs s + 1.
Proof. frame. Qed.

Lemma recordResult_runCorrect ok s :
  runCorrect (recordResult ok s) = runCorrect s + (if ok then 1 else 0).
Proof. intros. destruct s, ok; unfold recordResult; cbn; branches; cbn; lia. Qed.

Lemma pushReaction_eq ms s :
  pushReaction ms s = set_rts (rts (pushReaction ms s)) s.
Proof. destruct s. unfold pushReaction. cbn. branches; reflexivity. Qed.

Lemma recordResult_after_pushReaction ok ms s :
  recent (recordResult ok (pushReaction ms s)) = recent (recordResult ok s).
Proof.
  rewrite (pushReaction_eq ms s). generalize (rts (pushReaction ms s)).
  intros x. destruct s. unfold recordResult. cbn. branches; reflexivity.
Qed.

End Frames.

Create Rewrite HintDb fields.
#[global] Hint Rewrite
  recordResult_recentWindow recordResult_mode recordResult_sequence
  recordResult_accepting recordResult_inputIndex recordResult_round
  recordResult_showing recordResult_completedRounds recordResult_rts
  recordResult_padEnableTs recordResult_rtWindow pushReaction_mode
  pushReaction_sequence pushReaction_accepting pushReaction_inputIndex
  pushReaction_round pushReaction_showing pushReaction_recent
  pushReaction_recentWindow pushReaction_runInputs pushReaction_runCorrect
  pushReaction_completedRounds pushReaction_padEnableTs pushReaction_rtWindow
  recordResult_runInputs recordResult_runCorrect
  recordResult_after_pushReaction
  : fields.

Arguments recordResult : simpl never.
Arguments pushReaction : simpl never.

(** [handlePadPress_validate] branch by branch, the two statistics kept as
    the source computes them. *)
Section Validate.

Lemma State_eq (a b : State) :
  mode a = mode b -> sequence a = sequence b -> accepting a = accepting b ->
  inputIndex a = inputIndex b -> round a = round b -> showing a = showing b ->
  recent a = recent b -> recentWindow a = recentWindow b ->
  runInputs a = runInputs b -> runCorrect a = runCorrect b ->
  completedRounds a = completedRounds b -> rts a = rts b ->
  padEnableTs a = padEnableTs b -> rtWindow a = rtWindow b -> a = b.
Proof. destruct a, b. cbn. intros; subst; reflexivity. Qed.

Lemma World_eq (a b : World) :
  state a = state b -> heap a = heap b -> store a = store b ->
  lastAddedTs a = lastAddedTs b -> lit a = lit b -> a = b.
Proof. destruct a, b. cbn. intros; subst; reflexivity. Qed.

Lemma handlePadPress_validate_eq env index w :
  handlePadPress_validate env index w =
  let w0 :=
    if (inputIndex (state w) =? 0)%nat && negb (Qeq_bool (padEnableTs (state w)) 0)
    then w |> on_state (set_rts (rts (pushReaction
                                        (perfNow env - padEnableTs (state w))
                                        (state w))))
    else w in
  if negb (bool_decide (seq_of w !! inputIndex (state w) = Some index)) then
    (w0 |> on_state (set_recent (recent (recordResult false (state w))))
        |> on_state (set_runInputs (runInputs (state w) + 1))
        |> on_state (set_accepting false),
     [if strictChecked env then StrictEnd else Retry])
  else
    let w1 :=
      w0 |> on_state (set_recent (recent (recordResult true (state w))))
         |> on_state (set_runInputs (runInputs (state w) + 1))
         |> on_state (set_runCorrect (runCorrect (state w) + 1))
         |> on_state (set_inputIndex (inputIndex (state w) + 1)) in
    if (inputIndex (state w) + 1 =? length (seq_of w))%nat then
      (w1 |> on_state (set_completedRounds
                         (Nat.max (completedRounds (state w)) (round (state w))))
          |> on_state (set_accepting false), [RoundDone])
    else (w1, []).
Proof.
  break_world w. unfold handlePadPress_validate, seq_of. cbn.
  destruct ((ii =? 0)%nat && negb (Qeq_bool pts 0)); cbn;
    autorewrite with fields; cbn;
    (destruct (bool_decide _); cbn; autorewrite with fields; cbn;
     [destruct (_ =? _)%nat|destruct (strictChecked env)];
     (apply pair_eq; split; [|reflexivity]); apply World_eq; cbn;
     try reflexivity; apply State_eq; cbn;
     autorewrite with fields; cbn; rewrite ?Nat.add_0_r; reflexivity).
Qed.

End Validate.

Section Invariant.

Lemma pushReaction_sample_clamped ms :
  clamped (Z.max 50 (Z.min 2000 (toInt32 ms))).
Proof. unfold clamped. lia. Qed.

Lemma recordResult_keeps ok s :
  recentWindow s = 20 -> length (recent s) <= 20 -> Forall is_bit (recent s) ->
  length (recent (recordResult ok s)) <= 20 /\
  Forall is_bit (recent (recordResult ok s)).
Proof.
  intros HW HL HB. rewrite recordResult_recent by lia. rewrite HW. split.
  - apply length_lastn.
  - unfold lastn. apply Forall_drop, Forall_app. split; [exact HB|].
    apply Forall_singleton. destruct ok; [right|left]; reflexivity.
Qed.

Lemma pushReaction_keeps ms s :
  rtWindow s = 24 -> length (rts s) <= 24 -> Forall clamped (rts s) ->
  length (rts (pushReaction ms s)) <= 24 /\
  Forall clamped (rts (pushReaction ms s)).
Proof.
  intros HW HL HB. destruct s as [m sq ac ii rd sh rc W ri rco cr rt pts rw].
  cbn in HW, HL, HB. subst rw.
  unfold pushReaction, Array_shift; cbn [set_rts rts rtWindow].
  rewrite length_app; cbn [length].
  destruct (Nat.ltb_spec 24 (length rt + 1)) as [L|L]; cbn;
    rewrite ?length_drop, ?length_app; cbn [length];
    (split; [lia|]); try apply Forall_drop; apply Forall_app; split; auto;
    apply Forall_singleton, pushReaction_sample_clamped.
Qed.

Ltac stats :=
  repeat match goal with
  | |- Forall _ [] => constructor
  | |- _ => assumption
  | |- _ => reflexivity
  end.

Ltac inv_split :=
  unfold Inv, seq_of in *; cbn in *; intros;
  repeat match goal with H : _ /\ _ |- _ => destruct H end;
  subst;
  repeat match goal with
  | H : ?a <> ?b -> _ |- _ =>
      let N := fresh in assert (N : a <> b) by discriminate; specialize (H N)
  end;
  rewrite ?length_drop, ?length_app in *; cbn [length] in *;
  repeat split; intros;
  try match goal with
      | C : ?P -> _, H : ?P |- _ => specialize (C H)
      end;
  try lia; try congruence; stats.

Lemma resetToIdleUI_inv w : Inv w -> Inv (resetToIdleUI w).
Proof.
  break_world w. unfold Inv, seq_of. cbn. rewrite deref_new. inv_split.
Qed.

Lemma finalizeRun_inv env w : Inv w -> Inv (finalizeRun env w).
Proof.
  break_world w. unfold Inv, seq_of, finalizeRun. cbn.
  destruct (0 <? cr); cbn; rewrite deref_new; inv_split.
Qed.

Lemma nextRound_inv w : Inv w -> Inv (fst (nextRound w)).
Proof.
  break_world w. unfold nextRound. cbn.
  destruct m; cbn; inv_split.
Qed.

Lemma playback_inv env arr next dur w :
  Inv w -> Inv (fst (playback env arr next dur w)).
Proof.
  break_world w. unfold playback. cbn.
  destruct (deref arr h !! next); [destruct m|]; cbn; inv_split.
Qed.

Lemma showSequence_inv env w : Inv w -> Inv (fst (showSequence env w)).
Proof.
  intros H. unfold showSequence. apply playback_inv.
  revert H. break_world w. inv_split.
Qed.

Lemma sequence_push_inv x w : Inv w -> Inv (sequence_push x w).
Proof.
  break_world w. unfold sequence_push. unfold Inv, seq_of. cbn.
  intros (R & I & rest). rewrite length_alter, deref_push by exact R.
  rewrite length_app. cbn. repeat split; try tauto; lia.
Qed.

Lemma onMainButton_inv env w : Inv w -> Inv (fst (onMainButton env w)).
Proof.
  destruct (mode (state w)) eqn:M; unfold onMainButton; rewrite M.
  - case_bool_decide; [tauto|]. clear M.
    break_world w. unfold Inv, seq_of. cbn. rewrite deref_new. inv_split.
  - revert M. break_world w. cbn. intros ->. inv_split.
  - tauto.
  - intros. apply resetToIdleUI_inv. assumption.
Qed.

Ltac close_inv :=
  unfold Inv, seq_of; cbn; nat_tests;
  try match goal with
      | H : deref _ _ !! _ = Some _ |- _ => apply lookup_lt_Some in H
      end;
  repeat split; intros;
  try match goal with
      | C : ?P -> _, H : ?P |- _ => specialize (C H)
      end;
  solve [lia | assumption | reflexivity].

Lemma handlePadPress_validate_inv env index w :
  Inv w -> Inv (fst (handlePadPress_validate env index w)).
Proof.
  intros (R & I & C & HW & HR & LR & LT & FT & FB).
  rewrite handlePadPress_validate_eq.
  destruct (recordResult_keeps false (state w) HW LR FB) as [F1 F2].
  destruct (recordResult_keeps true (state w) HW LR FB) as [T1 T2].
  destruct (pushReaction_keeps (perfNow env - padEnableTs (state w)) (state w)
              HR LT FT) as [P1 P2].
  revert F1 F2 T1 T2 P1 P2.
  generalize (recent (recordResult false (state w)))
             (recent (recordResult true (state w)))
             (rts (pushReaction (perfNow env - padEnableTs (state w)) (state w))).
  revert R I C HW HR LR LT FT FB. unfold seq_of. break_world w. cbn.
  intros R I C HW HR LR LT FT FB xf xt xp F1 F2 T1 T2 P1 P2.
  branches; close_inv.
Qed.

Lemma resume_inv env t w : Inv w -> Inv (fst (resume env t w)).
Proof.
  intros H. destruct t; cbn [resume fst]; auto using nextRound_inv,
    finalizeRun_inv, playback_inv, handlePadPress_validate_inv.
  - unfold nextRound_show. apply showSequence_inv, sequence_push_inv, H.
  - unfold handlePadPress_retry. apply showSequence_inv.
    revert H. break_world w. inv_split.
Qed.

Lemma fire_inv env ev c : Inv (world c) -> Inv (world (fire env ev c)).
Proof.
  intros H. destruct ev; [| rewrite fire_PadKeyDown_world | | |]; cbn [fire].
  - destruct (_ || _); [exact H|]. unfold handlePadPress.
    destruct (_ || _); exact H.
  - destruct key; [apply onMainButton_inv, H|exact H].
  - apply onMainButton_inv, H.
  - revert H. destruct c as [w p]. break_world w. cbn. inv_split.
  - destruct (pending c !! n); [|exact H]. apply resume_inv, H.
Qed.

Lemma init_inv lb ok item : Inv (world (init lb ok item)).
Proof. unfold init. cbn. unfold Inv. cbn. repeat split; try lia; constructor. Qed.

Lemma reachable_inv c : reachable c -> Inv (world c).
Proof.
  induction 1 as [lb ok item|c c' _ IH (env & ev & ->)].
  - apply init_inv.
  - apply fire_inv, IH.
Qed.

Lemma reachable_run script c : reachable c -> reachable (run script c).
Proof.
  revert c. induction script as [|[env ev] script IH]; intros c H; cbn; [exact H|].
  apply IH. eapply reach_step; [exact H|]. exists env, ev. reflexivity.
Qed.

End Invariant.

Section Growth.





Lemma finalizeRun_mode env w : mode (state (finalizeRun env w)) = gameover.
Proof.
  break_world w. unfold finalizeRun. cbn.
  destruct (0 <? cr); reflexivity.
Qed.
















End Growth.

(** ** GameEngine: input handling and the end of a run *)

Section Input.

Lemma spawn_nothing c : spawn (pending c) (world c, []) = c.
Proof. destruct c. unfold spawn. cbn. rewrite app_nil_r. reflexivity. Qed.

(** The press that completes a round switches acceptance off. *)
Lemma round_complete_disables env index w :
  RoundDone ∈ snd (handlePadPress_validate env index w) ->
  accepting (state (fst (handlePadPress_validate env index w))) = false /\
  inputIndex (state (fst (handlePadPress_validate env index w)))
  = length (seq_of (fst (handlePadPress_validate env index w))).
Proof.
  rewrite handlePadPress_validate_eq. unfold seq_of. break_world w. cbn.
  branches; cbn; nat_tests; intros H;
    repeat match goal with
    | H : _ ∈ [] |- _ => apply elem_of_nil in H; contradiction
    | H : _ ∈ [_] |- _ => apply list_elem_of_singleton in H; try discriminate H
    end; split; solve [reflexivity | assumption].
Qed.

(** The guard of line 445 is evaluated when the press arrives: a pointer
    press or a Space key that finds the mode other than [playing], or input
    not accepted, changes nothing and schedules nothing.  An Enter key on a
    pad is ignored as a press in the same way, but reaches the listener of
    the document and acts as the main button. *)
Lemma pad_press_guard env index c :
  mode (state (world c)) <> playing \/ accepting (state (world c)) = false ->
  fire env (PointerDown index) c = c /\
  fire env (PadKeyDown Space index) c = c /\
  fire env (PadKeyDown Enter index) c = fire env MainButton c.
Proof.
  intros H.
  assert (G : negb (Mode_eqb (mode (state (world c))) playing)
              || negb (accepting (state (world c))) = true).
  { destruct H as [M|A].
    - destruct (mode (state (world c))); try reflexivity. contradiction.
    - rewrite A. apply orb_true_r. }
  cbn [fire]. unfold handlePadPress. rewrite G.
  rewrite spawn_nothing. repeat split; reflexivity.
Qed.

(** The guard is not evaluated again: a press that passed it is validated
    when its feedback pause is over, whatever the mode and the acceptance
    flag are by then, and counts as an input of the run. *)
Lemma admitted_press_validated env n index c :
  pending c !! n = Some (PressGap index) ->
  fire env (Resume n) c
  = spawn (delete n (pending c)) (handlePadPress_validate env index (world c)) /\
  runInputs (state (world (fire env (Resume n) c)))
  = runInputs (state (world c)) + 1.
Proof.
  intros P. cbn [fire]. rewrite P. cbn [resume]. split; [reflexivity|].
  unfold spawn; cbn [world]. rewrite handlePadPress_validate_eq.
  break_world (world c). cbn. branches; reflexivity.
Qed.

(** C2, at the inputs where the code departs from it.  In round 1 of a
    strict run the right pad is tapped twice within the feedback pause of
    the first tap, so both taps pass the guard.  When the first tap has been
    validated the round is complete and input is not accepted, yet the
    second tap is validated after it: it is counted as a second input, a
    wrong one, and ends the strict run with an accuracy of 1/2 on the
    leaderboard.  A press in its feedback pause when the run is ended is
    validated in mode [gameover], after the run was finalized, and has it
    finalized a second time: one run, two entries.  And in mode [gameover],
    with the pads enabled by a playback that outlived its run, an Enter key
    on a pad resets the game to [idle]. *)
Theorem duplicate_press_is_validated :
  let board c :=
    map (fun e => (Score.round e, Score.acc e))
      (loadLeaderboard (store (world c))) in
  let c1 := run (take 10 script_double_press) config0 in
  let c2 := fire (env_at true 1780) (Resume 0) c1 in
  let c := run script_double_press config0 in
  let d1 := run (take 18 script_late_press) config0 in
  let d2 := fire (env_at true 4430) (Resume 0) d1 in
  let d := run script_late_press config0 in
  let e := run script_stale_enable config0 in
  (reachable c /\ reachable d /\ reachable e) /\
  (accepting (state (world c1)) = false /\
   inputIndex (state (world c1)) = length (seq_of (world c1)) /\
   completedRounds (state (world c1)) = 1 /\
   runInputs (state (world c1)) = 1 /\
   pending c1 = [PressGap 2; RoundDone]) /\
  (runInputs (state (world c2)) = 2 /\
   runCorrect (state (world c2)) = 1 /\
   pending c2 = [RoundDone; StrictEnd]) /\
  (mode (state (world c)) = gameover /\ board c = [(1, (1 # 2)%Q)]) /\
  (mode (state (world d1)) = gameover /\
   accepting (state (world d1)) = false /\
   runInputs (state (world d1)) = 1 /\
   pending d1 = [PressGap 3] /\
   board d1 = [(1, 1%Q)]) /\
  (runInputs (state (world d2)) = 2 /\ pending d2 = [StrictEnd]) /\
  (mode (state (world d)) = gameover /\
   board d = [(1, 1%Q); (1, (1 # 2)%Q)]) /\
  (mode (state (world e)) = gameover /\
   accepting (state (world e)) = true /\
   pending e = [] /\
   mode (state (world (fire (env_at false 2000) (PadKeyDown Enter 2) e)))
   = idle).
Proof.
  intros board c1 c2 c d1 d2 d e.
  split; [repeat split; apply reachable_run, reach_init|].
  vm_compute. repeat split.
Qed.

End Input.

Section Finalize.

Lemma finalizeRun_store env w :
  store (finalizeRun env w)
  = if (0 <? completedRounds (state w))%nat
    then addScore env (playerName env) (completedRounds (state w))
           (if (runInputs (state w) =? 0)%nat then 0%Q
            else (ofNat (runCorrect (state w)) / ofNat (runInputs (state w)))%Q)
           (strictChecked env) (Some (dateNow env)) (store w)
    else store w.
Proof.
  break_world w. unfold finalizeRun. cbn.
  destruct (0 <? cr); reflexivity.
Qed.

Lemma finalizeRun_cleared env w :
  let w' := finalizeRun env w in
  mode (state w') = gameover /\ accepting (state w') = false /\
  seq_of w' = [] /\ inputIndex (state w') = 0 /\ round (state w') = 0.
Proof.
  break_world w.
  unfold finalizeRun, seq_of. cbn.
  destruct (0 <? cr); cbn; rewrite deref_new; repeat split; reflexivity.
Qed.

(** C6: a run finalized with [completedRounds = 0] creates no leaderboard
    entry, whatever the strict toggle and the rest of the environment: the
    store is left exactly as it was, and the engine is in [gameover].  Both
    continuations that finalize (the end request and the strict mistake)
    behave so. *)
Theorem finalize_without_rounds env w :
  completedRounds (state w) = 0 ->
  store (finalizeRun env w) = store w /\
  lastAddedTs (finalizeRun env w) = lastAddedTs w /\
  mode (state (finalizeRun env w)) = gameover /\
  resume env Ending w = (finalizeRun env w, []) /\
  resume env StrictEnd w = (finalizeRun env w, []).
Proof.
  intros Z. split; [|split; [|split; [|split; reflexivity]]].
  - rewrite finalizeRun_store, Z. reflexivity.
  - revert Z. break_world w. cbn. intros ->. reflexivity.
  - apply finalizeRun_mode.
Qed.

Lemma finalize_without_rounds_witness :
  let c := run (script_round1 ++ script_press true 0 1500) config0 in
  completedRounds (state (world c)) = 0 /\
  pending c = [StrictEnd] /\
  store (world (fire (env_at true 2050) (Resume 0) c)) = store (world c) /\
  mode (state (world (fire (env_at true 2050) (Resume 0) c))) = gameover.
Proof.
  intros c.
  assert (Z : completedRounds (state (world c)) = 0) by (vm_compute; reflexivity).
  destruct (finalize_without_rounds (env_at true 2050) (world c) Z)
    as (S & _ & M & _).
  split; [exact Z|]. split; [vm_compute; reflexivity|].
  split; [exact S|exact M].
Defined.

End Finalize.

Section Mistakes.

(** What a mismatched press leaves behind, before the strict toggle is
    looked at. *)
Lemma mismatch_effect env index w :
  seq_of w !! inputIndex (state w) <> Some index ->
  let r := handlePadPress_validate env index w in
  snd r = [if strictChecked env then StrictEnd else Retry] /\
  recent (state (fst r)) = recent (recordResult false (state w)) /\
  runInputs (state (fst r)) = runInputs (state w) + 1 /\
  runCorrect (state (fst r)) = runCorrect (state w) /\
  accepting (state (fst r)) = false /\
  mode (state (fst r)) = mode (state w) /\
  round (state (fst r)) = round (state w) /\
  completedRounds (state (fst r)) = completedRounds (state w) /\
  sequence (state (fst r)) = sequence (state w) /\
  heap (fst r) = heap w /\
  store (fst r) = store w /\
  lit (fst r) = lit w.
Proof.
  intros N. cbv zeta. rewrite handlePadPress_validate_eq.
  rewrite bool_decide_eq_false_2 by exact N. cbn [negb].
  generalize (recent (recordResult false (state w))).
  break_world w. cbn. intros x. branches; cbn; repeat split; reflexivity.
Qed.

(** C4: a mismatch with the strict toggle on schedules the finalization and
    nothing else (no replay); the finalization ends in [gameover], and when
    [completedRounds > 0] it inserts the entry whose round is
    [completedRounds] and whose accuracy is [runCorrect / runInputs], the
    counters being those [finalizeRun] sees, the failed input included.  In
    general [finalizeRun] uses accuracy 0 when [runInputs = 0]. *)
Theorem strict_mismatch_finalizes env index w :
  seq_of w !! inputIndex (state w) <> Some index ->
  strictChecked env = true ->
  let w1 := fst (handlePadPress_validate env index w) in
  snd (handlePadPress_validate env index w) = [StrictEnd] /\
  runInputs (state w1) = runInputs (state w) + 1 /\
  runCorrect (state w1) = runCorrect (state w) /\
  (forall env2,
     let w2 := fst (resume env2 StrictEnd w1) in
     let entry :=
       Score.mk (playerName env2) (completedRounds (state w))
         (ofNat (runCorrect (state w1)) / ofNat (runInputs (state w1)))%Q
         (strictChecked env2) (dateNow env2) in
     snd (resume env2 StrictEnd w1) = [] /\
     mode (state w2) = gameover /\
     accepting (state w2) = false /\
     (0 < completedRounds (state w) ->
      lbList (store w) = true -> playerName env2 <> ""%string ->
      storageOK (store w) = false \/ setItemOk env2 = true ->
      loadLeaderboard (store w2)
      = take 200 (Array_sort cmpScore (loadLeaderboard (store w) ++ [entry])))) /\
  (forall env0 w0,
     0 < completedRounds (state w0) -> runInputs (state w0) = 0 ->
     store (finalizeRun env0 w0)
     = addScore env0 (playerName env0) (completedRounds (state w0)) 0%Q
         (strictChecked env0) (Some (dateNow env0)) (store w0)).
Proof.
  intros N S w1.
  destruct (mismatch_effect env index w N)
    as (T & _ & RI & RC & _ & _ & _ & CR & _ & _ & ST & _).
  fold w1 in T, RI, RC, CR, ST. rewrite S in T.
  split; [exact T|]. split; [exact RI|]. split; [exact RC|]. split.
  - intros env2 w2 entry. cbn [resume fst snd] in *.
    destruct (finalizeRun_cleared env2 w1) as (M & A & _).
    split; [reflexivity|]. split; [exact M|]. split; [exact A|].
    intros Pos Lb Nm Ok. unfold w2. rewrite finalizeRun_store, CR.
    apply Nat.ltb_lt in Pos. rewrite Pos.
    replace (runInputs (state w1) =? 0)%nat with false
      by (symmetry; apply Nat.eqb_neq; lia).
    rewrite ST. apply addScore_load; assumption.
  - intros env0 w0 Pos Z. rewrite finalizeRun_store, Z.
    apply Nat.ltb_lt in Pos. rewrite Pos. reflexivity.
Qed.

Lemma strict_mismatch_finalizes_witness :
  let w1 := fst (handlePadPress_validate (env_at true 1700) 1 world_round5) in
  let w2 := fst (resume (env_at true 2020) StrictEnd w1) in
  completedRounds (state w1) = 4 /\
  runInputs (state w1) = 12 /\
  runCorrect (state w1) = 10 /\
  mode (state w2) = gameover /\
  loadLeaderboard (store w2)
  = [Score.mk "Ada" 4 (ofNat 10 / ofNat 12)%Q true 1700000000000%Z].
Proof.
  intros w1 w2.
  assert (N : seq_of world_round5 !! inputIndex (state world_round5) <> Some 1%Z)
    by (vm_compute; discriminate).
  destruct (strict_mismatch_finalizes (env_at true 1700) 1 world_round5 N eq_refl)
    as (_ & RI & RC & F & _).
  destruct (F (env_at true 2020)) as (_ & M & _ & L).
  split; [vm_compute; reflexivity|].
  split; [exact RI|]. split; [exact RC|]. split; [exact M|].
  unfold w2, w1. rewrite L.
  - vm_compute. reflexivity.
  - vm_compute. lia.
  - reflexivity.
  - discriminate.
  - right. reflexivity.
Defined.

End Mistakes.

Section Replay.







End Replay.

(** ** StatsTracker: the reaction history *)

Section Reactions.

(** Every stored sample is clamped, the history holds at most [rtWindow] of
    them, and a push onto a full history evicts the oldest. *)
Lemma pushReaction_rts ms s :
  length (rts s) <= rtWindow s ->
  rts (pushReaction ms s)
  = lastn (rtWindow s) (rts s ++ [Z.max 50 (Z.min 2000 (toInt32 ms))]).
Proof.
  intros H. destruct s as [m sq ac ii rd sh rc W ri rco cr rt pts rw].
  cbn [rts rtWindow] in *.
  unfold pushReaction, lastn, Array_shift; cbn [set_rts rts rtWindow].
  rewrite length_app; cbn [length].
  destruct (Nat.ltb_spec rw (length rt + 1)) as [L|L].
  - replace (length rt + 1 - rw) with 1 by lia. reflexivity.
  - replace (length rt + 1 - rw) with 0 by lia. reflexivity.
Qed.

Lemma reachable_rts c :
  reachable c ->
  length (rts (state (world c))) <= 24 /\ Forall clamped (rts (state (world c))).
Proof. intros H. destruct (reachable_inv c H) as (_ & _ & _ & _ & _ & _ & L & F & _). auto. Qed.

(** A validated press stores a sample exactly when it is the first input
    since [inputIndex] was reset and the pads were enabled by a playback. *)
Lemma handlePadPress_validate_rts env index w :
  rts (state (fst (handlePadPress_validate env index w)))
  = if (inputIndex (state w) =? 0)%nat
       && negb (Qeq_bool (padEnableTs (state w)) 0)
    then rts (pushReaction (perfNow env - padEnableTs (state w)) (state w))
    else rts (state w).
Proof.
  rewrite handlePadPress_validate_eq.
  generalize (rts (pushReaction (perfNow env - padEnableTs (state w)) (state w))).
  break_world w. cbn. intros x. branches; reflexivity.
Qed.

(** In every reachable state the windows have their declared sizes and
    contents: the premises of the statistics theorems are met by the
    engine. *)
Lemma reachable_stats c :
  reachable c ->
  recentWindow (state (world c)) = 20 /\
  length (recent (state (world c))) <= 20 /\
  (0 <= getRecentAccuracy (state (world c)) <= 1)%Q /\
  rtWindow (state (world c)) = 24.
Proof.
  intros H. destruct (reachable_inv c H) as (_ & _ & _ & W & R & L & _ & _ & B).
  repeat split; try assumption; apply getRecentAccuracy_range, B.
Qed.

(** C8, at the input where the code departs from it: in round 1 of a
    non-strict run a wrong pad is pressed, the sequence is replayed, and the
    right pad is pressed.  Both presses are a first input after a playback,
    so the history holds two samples although only one round was played. *)
Theorem two_reaction_samples_in_round_one :
  let c := run script_retry_round1 config0 in
  reachable c /\
  round (state (world c)) = 1 /\
  completedRounds (state (world c)) = 1 /\
  rts (state (world c)) = [270; 435]%Z.
Proof.
  intros c. split; [apply reachable_run, reach_init|].
  vm_compute. repeat split.
Qed.

End Reactions.

(** * Further properties

    What the code shows beyond the properties above. *)

(** ** Run counters *)

Section Counters.

Lemma recordResult_tally ok s :
  recentWindow s = 20 -> Tally s -> Tally (recordResult ok s).
Proof.
  intros W (C & L & S). unfold Tally.
  rewrite recordResult_runInputs, recordResult_runCorrect,
    recordResult_showing, recordResult_accepting.
  rewrite recordResult_recent by lia. rewrite W.
  unfold lastn. rewrite length_drop, length_app. cbn [length].
  repeat split; [destruct ok; lia|lia|exact S].
Qed.

Ltac tally :=
  unfold Tally in *; cbn in *; intros;
  repeat match goal with H : _ /\ _ |- _ => destruct H end;
  repeat split; intros; try lia; try congruence; auto.

Lemma resetToIdleUI_tally w : Tally (state (resetToIdleUI w)).
Proof. break_world w. tally. Qed.

Lemma finalizeRun_tally env w :
  Tally (state w) -> Tally (state (finalizeRun env w)).
Proof.
  break_world w. unfold finalizeRun. cbn. destruct (0 <? cr); tally.
Qed.

Lemma nextRound_tally w : Tally (state w) -> Tally (state (fst (nextRound w))).
Proof. break_world w. unfold nextRound. cbn. destruct m; tally. Qed.

Lemma playback_tally env arr next dur w :
  Tally (state w) -> Tally (state (fst (playback env arr next dur w))).
Proof.
  break_world w. unfold playback. cbn.
  destruct (deref arr h !! next); [destruct m|]; tally.
Qed.

Lemma showSequence_tally env w :
  Tally (state w) -> Tally (state (fst (showSequence env w))).
Proof.
  intros H. unfold showSequence. apply playback_tally.
  revert H. break_world w. tally.
Qed.

Lemma onMainButton_tally env w :
  Tally (state w) -> Tally (state (fst (onMainButton env w))).
Proof.
  destruct (mode (state w)) eqn:M; unfold onMainButton; rewrite M.
  - case_bool_decide; [tauto|]. clear M. break_world w. tally.
  - clear M. break_world w. tally.
  - tauto.
  - intros _. apply resetToIdleUI_tally.
Qed.

Lemma handlePadPress_validate_tally env index w :
  recentWindow (state w) = 20 ->
  Tally (state w) -> Tally (state (fst (handlePadPress_validate env index w))).
Proof.
  intros HW HT. rewrite handlePadPress_validate_eq.
  pose proof (recordResult_tally false _ HW HT) as (F1 & F2 & _).
  pose proof (recordResult_tally true _ HW HT) as (T1 & T2 & _).
  rewrite recordResult_runInputs, recordResult_runCorrect in *.
  revert F1 F2 T1 T2.
  generalize (recent (recordResult false (state w)))
             (recent (recordResult true (state w)))
             (rts (pushReaction (perfNow env - padEnableTs (state w)) (state w))).
  clear HW. revert HT. break_world w. cbn. intros HT xf xt xp F1 F2 T1 T2.
  branches; tally.
Qed.

Lemma resume_tally env t w :
  Inv w -> Tally (state w) -> Tally (state (fst (resume env t w))).
Proof.
  intros I H. destruct t; cbn [resume fst]; auto using nextRound_tally,
    finalizeRun_tally, playback_tally.
  - unfold nextRound_show. apply showSequence_tally.
    revert H. break_world w. tally.
  - apply handlePadPress_validate_tally; [apply I|exact H].
  - unfold handlePadPress_retry. apply showSequence_tally.
    revert H. break_world w. tally.
Qed.

Lemma fire_tally env ev c :
  Inv (world c) -> Tally (state (world c)) ->
  Tally (state (world (fire env ev c))).
Proof.
  intros I H. destruct ev; [| rewrite fire_PadKeyDown_world | | |]; cbn [fire].
  - destruct (_ || _); [exact H|]. unfold handlePadPress.
    destruct (_ || _); exact H.
  - destruct key; [apply onMainButton_tally, H|exact H].
  - apply onMainButton_tally, H.
  - exact H.
  - destruct (pending c !! n); [|exact H]. apply resume_tally; assumption.
Qed.

Lemma reachable_tally c : reachable c -> Tally (state (world c)).
Proof.
  induction 1 as [lb ok item|c c' R IH (env & ev & ->)].
  - unfold init. cbn. unfold Tally. cbn. repeat split; auto.
  - apply fire_tally; [apply reachable_inv, R|exact IH].
Qed.

End Counters.

Section Bookkeeping.

(** X1: the run counters in a reachable state.  The correct inputs never
    exceed the inputs, the accuracy window holds as many bits as the run has
    inputs, up to 20, the pads are not accepting while [showing] is set, and
    the accuracy a finalization would record lies between 0 and 1. *)
Theorem run_counters_consistent c env :
  reachable c ->
  let s := state (world c) in
  runCorrect s <= runInputs s /\
  length (recent s) = Nat.min (runInputs s) 20 /\
  (showing s = true -> accepting s = false) /\
  (0 <= Score.acc (final_entry env s) <= 1)%Q.
Proof.
  intros R s. pose proof (reachable_tally c R) as T. fold s in T.
  destruct T as (A & B & C). repeat split; try assumption.
  - unfold final_entry. cbn.
    destruct (Nat.eqb_spec (runInputs s) 0) as [E|E]; [unfold Qle; cbn; lia|].
    apply Qle_shift_div_l.
    + unfold ofNat. change 0%Q with (inject_Z 0). rewrite <- Zlt_Qlt. lia.
    + rewrite Qmult_0_l. apply (ofNat_le 0). lia.
  - unfold final_entry. cbn.
    destruct (Nat.eqb_spec (runInputs s) 0) as [E|E]; [unfold Qle; cbn; lia|].
    apply Qle_shift_div_r.
    + unfold ofNat. change 0%Q with (inject_Z 0). rewrite <- Zlt_Qlt. lia.
    + rewrite Qmult_1_l. apply ofNat_le, A.
Qed.

Lemma run_counters_consistent_witness :
  let s := state (world (run script_two_endings config0)) in
  runCorrect s <= runInputs s /\
  length (recent s) = Nat.min (runInputs s) 20 /\
  (showing s = true -> accepting s = false) /\
  (0 <= Score.acc (final_entry (env_at true 4620) s) <= 1)%Q.
Proof.
  apply (run_counters_consistent (run script_two_endings config0)).
  apply reachable_run, reach_init.
Defined.

End Bookkeeping.

(** ** Persistence *)

Section Persistence.

Lemma nextRound_store w :
  store (fst (nextRound w)) = store w /\
  lastAddedTs (fst (nextRound w)) = lastAddedTs w.
Proof. break_world w. unfold nextRound. cbn. destruct m; split; reflexivity. Qed.

Lemma playback_store env arr next dur w :
  store (fst (playback env arr next dur w)) = store w /\
  lastAddedTs (fst (playback env arr next dur w)) = lastAddedTs w.
Proof.
  break_world w. unfold playback. cbn.
  destruct (deref arr h !! next); [destruct m|]; split; reflexivity.
Qed.

Lemma showSequence_store env w :
  store (fst (showSequence env w)) = store w /\
  lastAddedTs (fst (showSequence env w)) = lastAddedTs w.
Proof.
  unfold showSequence.
  destruct (playback_store env
    (sequence (state (w |> on_state (set_showing true)
                        |> on_state (enablePads (perfNow env) false)))) 0
    (stepDuration (toneChecked env)
       (state (w |> on_state (set_showing true)
                 |> on_state (enablePads (perfNow env) false)))
       (round (state (w |> on_state (set_showing true)
                        |> on_state (enablePads (perfNow env) false)))))
    (w |> on_state (set_showing true)
       |> on_state (enablePads (perfNow env) false))) as [-> ->].
  break_world w. split; reflexivity.
Qed.

Lemma onMainButton_store env w :
  store (fst (onMainButton env w)) = store w /\
  lastAddedTs (fst (onMainButton env w)) = lastAddedTs w.
Proof.
  break_world w. unfold onMainButton. cbn.
  destruct m; [case_bool_decide| | |]; split; reflexivity.
Qed.

Lemma handlePadPress_validate_store env index w :
  store (fst (handlePadPress_validate env index w)) = store w /\
  lastAddedTs (fst (handlePadPress_validate env index w)) = lastAddedTs w.
Proof.
  rewrite handlePadPress_validate_eq. break_world w. cbn.
  branches; split; reflexivity.
Qed.

Lemma resume_store env t w :
  ~ finalizes t ->
  store (fst (resume env t w)) = store w /\
  lastAddedTs (fst (resume env t w)) = lastAddedTs w.
Proof.
  unfold finalizes. intros N.
  destruct t; cbn [resume fst]; try tauto;
    auto using nextRound_store, playback_store, handlePadPress_validate_store.
  - unfold nextRound_show.
    destruct (showSequence_store env (sequence_push (Qfloor (mathRandom env * 4)) w))
      as [-> ->].
    break_world w. split; reflexivity.
  - unfold handlePadPress_retry.
    destruct (showSequence_store env (w |> on_state (set_inputIndex 0))) as [-> ->].
    break_world w. split; reflexivity.
Qed.

Lemma fire_store env ev c :
  (store (world (fire env ev c)) = store (world c) /\
   lastAddedTs (world (fire env ev c)) = lastAddedTs (world c)) \/
  (ev = ClearLb /\
   store (world (fire env ev c)) = removeItem (store (world c))) \/
  (exists n t, ev = Resume n /\ pending c !! n = Some t /\ finalizes t /\
               world (fire env ev c) = finalizeRun env (world c)).
Proof.
  destruct ev; [| rewrite fire_PadKeyDown_world | | |]; cbn [fire].
  - left. destruct (_ || _); [auto|]. unfold handlePadPress.
    destruct (_ || _); auto.
  - left. destruct key; [apply onMainButton_store|auto].
  - left. apply onMainButton_store.
  - right. left. auto.
  - destruct (pending c !! n) as [t|] eqn:P; [|left; auto].
    assert (D : finalizes t \/ ~ finalizes t)
      by (unfold finalizes; destruct t; (left; auto; fail) || (right; intros [|]; discriminate)).
    destruct D as [F|N].
    + right. right. exists n, t. repeat split; auto.
      destruct F as [-> | ->]; reflexivity.
    + left. apply resume_store, N.
Qed.

Lemma addScore_fields env name round acc strict t st :
  let st' := addScore env name round acc strict t st in
  lbList st' = lbList st /\ storageOK st' = storageOK st /\
  (storageOK st = true -> memLB st' = memLB st) /\
  (storageOK st = false -> lsItem st' = lsItem st) /\
  (lbList st = false -> st' = st).
Proof.
  unfold addScore, saveLeaderboard. destruct st as [lb ok mem item]. cbn.
  destruct lb; cbn; [|repeat split; reflexivity].
  case_bool_decide; [repeat split; reflexivity|].
  destruct ok; cbn; [destruct (setItemOk env)|]; cbn;
    repeat split; intros; congruence.
Qed.

Lemma finalizeRun_fields env w :
  let st := store w in
  let st' := store (finalizeRun env w) in
  lbList st' = lbList st /\ storageOK st' = storageOK st /\
  (storageOK st = true -> memLB st' = memLB st) /\
  (storageOK st = false -> lsItem st' = lsItem st) /\
  (lbList st = false -> st' = st).
Proof.
  cbv zeta. rewrite finalizeRun_store.
  destruct (0 <? completedRounds (state w))%nat.
  - apply addScore_fields.
  - repeat split; reflexivity.
Qed.

(** X2: the leaderboard is written only when a run ends or the list is
    cleared: any other event, round completions included, leaves the store
    and the highlight mark as they are. *)
Theorem leaderboard_written_only_at_end env ev c :
  ev <> ClearLb ->
  (forall n t, ev = Resume n -> pending c !! n = Some t -> ~ finalizes t) ->
  store (world (fire env ev c)) = store (world c) /\
  lastAddedTs (world (fire env ev c)) = lastAddedTs (world c).
Proof.
  intros NC NF.
  destruct (fire_store env ev c) as [H|[[E _]|(n & t & E & P & F & _)]].
  - exact H.
  - contradiction.
  - exfalso. exact (NF n t E P F).
Qed.

Lemma leaderboard_written_only_at_end_witness :
  let c := run (script_round1 ++ script_press false 2 1500) config0 in
  completedRounds (state (world c)) = 1 /\
  store (world (fire (env_at false 2400) (Resume 0) c)) = store (world c).
Proof.
  intros c. split; [vm_compute; reflexivity|].
  refine (proj1 (leaderboard_written_only_at_end (env_at false 2400)
                   (Resume 0) c _ _)).
  - discriminate.
  - intros n t E. injection E as <-. vm_compute. intros P. injection P as <-.
    unfold finalizes. intros [|]; discriminate.
Defined.

(** X3: the storage mode never changes and the two places a leaderboard can
    live in never mix: whether the list element exists and whether
    [localStorage] works stay as the start-up found them; with working
    storage the in-memory list is never written, without it the stored item
    is touched by the clear button only; without a list element nothing is
    ever recorded. *)
Theorem storage_places_separate env ev c :
  let st := store (world c) in
  let st' := store (world (fire env ev c)) in
  lbList st' = lbList st /\ storageOK st' = storageOK st /\
  (storageOK st = true -> memLB st' = memLB st) /\
  (storageOK st = false -> ev <> ClearLb -> lsItem st' = lsItem st) /\
  (lbList st = false -> ev <> ClearLb -> st' = st).
Proof.
  cbv zeta.
  destruct (fire_store env ev c) as [[H _]|[[E H]|(n & t & E & P & F & H)]];
    rewrite H.
  - repeat split; reflexivity.
  - repeat split; try reflexivity; intros; contradiction.
  - destruct (finalizeRun_fields env (world c)) as (A & B & C & D & G).
    repeat split; auto.
Qed.

Lemma storage_places_separate_witness :
  let c := run script_end_after_round1 (init true false None) in
  length (memLB (store (world c))) = 1 /\ lsItem (store (world c)) = None.
Proof.
  intros c. split; [vm_compute; reflexivity|].
  pose proof (storage_places_separate (env_at false 1920) (Resume 1)
    (run (removelast script_end_after_round1) (init true false None)))
    as (_ & _ & _ & H & _).
  refine (eq_trans (H _ _) _).
  - vm_compute. reflexivity.
  - discriminate.
  - vm_compute. reflexivity.
Defined.

(** X4: what the clear button does to the list [loadLeaderboard] returns:
    with working storage the list is empty afterwards; with storage disabled
    the scores kept in memory are not cleared.  The engine state and the
    pending continuations are not touched. *)
Theorem clear_button_effect env c :
  let c' := fire env ClearLb c in
  loadLeaderboard (store (world c'))
  = (if storageOK (store (world c)) then [] else loadLeaderboard (store (world c)))
  /\ state (world c') = state (world c) /\ pending c' = pending c.
Proof.
  destruct c as [w p]. break_world w. destruct st as [lb ok mem item].
  cbn. unfold loadLeaderboard. cbn.
  destruct lb, ok; cbn; repeat split; reflexivity.
Qed.

End Persistence.

(** ** What the leaderboard holds *)

Section StoreInvariant.

Lemma final_entry_ok env s :
  Tally s -> 0 < completedRounds s -> playerName env <> ""%string ->
  entry_ok (final_entry env s).
Proof.
  intros (C & _) R N. unfold entry_ok, final_entry. cbn.
  split; [lia|]. split; [|exact N].
  destruct (Nat.eqb_spec (runInputs s) 0) as [E|E].
  - split; unfold Qle; cbn; lia.
  - assert (P : (0 < ofNat (runInputs s))%Q).
    { unfold ofNat. change 0%Q with (inject_Z 0). rewrite <- Zlt_Qlt. lia. }
    split.
    + apply Qle_shift_div_l; [exact P|]. rewrite Qmult_0_l.
      unfold ofNat. change 0%Q with (inject_Z 0). rewrite <- Zle_Qle. lia.
    + apply Qle_shift_div_r; [exact P|]. rewrite Qmult_1_l.
      apply ofNat_le, C.
Qed.

Lemma finalizeRun_entry env w :
  store (finalizeRun env w)
  = if (0 <? completedRounds (state w))%nat
    then addScore env (Score.name (final_entry env (state w)))
           (Score.round (final_entry env (state w)))
           (Score.acc (final_entry env (state w)))
           (Score.strict (final_entry env (state w)))
           (Some (Score.time (final_entry env (state w)))) (store w)
    else store w.
Proof. apply finalizeRun_store. Qed.

Lemma finalizeRun_load env w :
  lbList (store w) = true -> playerName env <> ""%string ->
  storageOK (store w) = false \/ setItemOk env = true ->
  0 < completedRounds (state w) ->
  loadLeaderboard (store (finalizeRun env w))
  = take 200 (Array_sort cmpScore
                (loadLeaderboard (store w) ++ [final_entry env (state w)])).
Proof.
  intros Lb Nm Ok R. rewrite finalizeRun_store.
  apply Nat.ltb_lt in R. rewrite R.
  rewrite addScore_load by assumption. reflexivity.
Qed.

Context (P : list Score.t -> Prop).
Hypothesis P_nil : P [].
Hypothesis P_add : forall l e,
  P l -> entry_ok e -> P (take 200 (Array_sort cmpScore (l ++ [e]))).

Lemma Stored_load st : Stored P st -> P (loadLeaderboard st).
Proof.
  intros [M I]. unfold loadLeaderboard.
  destruct (lbList st); cbn; [|exact P_nil].
  destruct (storageOK st); cbn; assumption.
Qed.

Lemma addScore_stored env e st :
  entry_ok e -> Stored P st ->
  Stored P (addScore env (Score.name e) (Score.round e) (Score.acc e)
              (Score.strict e) (Some (Score.time e)) st).
Proof.
  intros E [M I]. unfold addScore, saveLeaderboard, loadLeaderboard, Stored.
  destruct e as [nm r a sm tm]. destruct st as [lb ok mem item].
  cbn in *. destruct lb; cbn; [|auto].
  case_bool_decide; [auto|].
  destruct ok; cbn; [destruct (setItemOk env)|]; cbn; auto.
  - split; [exact M|exact (P_add _ _ I E)].
  - split; [exact (P_add _ _ M E)|exact I].
Qed.

Lemma fire_stored env ev c :
  reachable c -> Stored P (store (world c)) ->
  Stored P (store (world (fire env ev c))).
Proof.
  intros R S.
  destruct (fire_store env ev c) as [[H _]|[[E H]|(n & t & E & Pn & F & H)]];
    rewrite H.
  - exact S.
  - destruct S as [M _]. split; [exact M|exact P_nil].
  - rewrite finalizeRun_entry.
    destruct (Nat.ltb_spec 0 (completedRounds (state (world c)))) as [L|L];
      [|exact S].
    destruct (decide (playerName env = ""%string)) as [N|N].
    + unfold addScore. cbn [final_entry Score.name]. rewrite N.
      rewrite orb_true_r. exact S.
    + apply addScore_stored; [|exact S].
      apply final_entry_ok; [apply reachable_tally, R|exact L|exact N].
Qed.

Lemma run_stored script : forall c,
  reachable c -> Stored P (store (world c)) ->
  Stored P (store (world (run script c))).
Proof.
  induction script as [|[env ev] script IH]; intros c R S; [exact S|].
  cbn. apply IH.
  - eapply reach_step; [exact R|]. exists env, ev. reflexivity.
  - apply fire_stored; assumption.
Qed.

Lemma init_stored lb ok item :
  P (default [] item) -> Stored P (store (world (init lb ok item))).
Proof. intros H. split; [exact P_nil|exact H]. Qed.

End StoreInvariant.

Section BoardInvariants.

Lemma Forall_take_sorted (Q : Score.t -> Prop) l e :
  Forall Q l -> Q e -> Forall Q (take 200 (Array_sort cmpScore (l ++ [e]))).
Proof.
  intros L E. apply Forall_take.
  rewrite (Array_sort_perm (l ++ [e])). apply Forall_app. auto.
Qed.

Lemma StronglySorted_take {A} (R : A -> A -> Prop) n (l : list A) :
  StronglySorted R l -> StronglySorted R (take n l).
Proof.
  intros S. revert n. induction S as [|x l S IH F]; intros [|n]; cbn;
    try constructor.
  - apply IH.
  - apply Forall_take, F.
Qed.

Lemma ranked_take_sorted l :
  ranked (take 200 (Array_sort cmpScore l)).
Proof.
  split.
  - apply StronglySorted_take, Array_sort_sorted.
  - rewrite length_take. lia.
Qed.

(** X5: the entries of the leaderboard are well formed as long as the stored
    ones were: whatever the events, every entry has a round of at least 1,
    an accuracy between 0 and 1 and a non-empty name. *)
Theorem leaderboard_entries_wellformed script lb ok item :
  Forall entry_ok (default [] item) ->
  Forall entry_ok
    (loadLeaderboard (store (world (run script (init lb ok item))))).
Proof.
  intros H. apply Stored_load; [constructor|].
  apply run_stored.
  - constructor.
  - intros l e L E. apply Forall_take_sorted; assumption.
  - apply reach_init.
  - apply init_stored; [constructor|exact H].
Qed.

Lemma leaderboard_entries_wellformed_witness :
  Forall entry_ok
    (loadLeaderboard
       (store (world (run script_end_after_round1
                        (init true true (lsItem store_one)))))).
Proof.
  apply leaderboard_entries_wellformed.
  repeat constructor; cbn; try lia; try discriminate; unfold Qle; cbn; lia.
Defined.

(** X6: a leaderboard in ranking order and within the cap of 200 stays so:
    after any events the list is still ordered by round, then accuracy, then
    time, and holds at most 200 entries. *)
Theorem leaderboard_stays_ranked script lb ok item :
  ranked (default [] item) ->
  ranked (loadLeaderboard (store (world (run script (init lb ok item))))).
Proof.
  assert (N : ranked []) by (split; [constructor|cbn; lia]).
  intros H. apply Stored_load; [exact N|].
  apply run_stored.
  - exact N.
  - intros l e _ _. apply ranked_take_sorted.
  - apply reach_init.
  - apply init_stored; [exact N|exact H].
Qed.

Lemma leaderboard_stays_ranked_witness :
  ranked
    (loadLeaderboard
       (store (world (run script_end_after_round1
                        (init true true (lsItem store_one)))))).
Proof.
  apply leaderboard_stays_ranked. split; [|cbn; lia].
  repeat constructor.
Defined.

End BoardInvariants.

(** ** Finalization *)

Section Endings.

Lemma finalizeRun_counters env w :
  completedRounds (state (finalizeRun env w)) = completedRounds (state w) /\
  runInputs (state (finalizeRun env w)) = runInputs (state w) /\
  runCorrect (state (finalizeRun env w)) = runCorrect (state w).
Proof.
  break_world w. unfold finalizeRun. cbn.
  destruct (0 <? cr); repeat split; reflexivity.
Qed.

Lemma finalizeRun_lastAddedTs env w :
  lastAddedTs (finalizeRun env w)
  = if (0 <? completedRounds (state w))%nat then Some (dateNow env)
    else lastAddedTs w.
Proof.
  break_world w. unfold finalizeRun. cbn.
  destruct (0 <? cr); reflexivity.
Qed.

(** X7: [finalizeRun] clears the sequence and the round but keeps
    [completedRounds] and the run counters, so finalizing again records the
    same run a second time: after two finalizations the leaderboard holds
    the old entries and two entries for the one run, equal in round and
    accuracy. *)
Theorem finalizeRun_twice_records_twice env1 env2 w :
  lbList (store w) = true ->
  playerName env1 <> ""%string -> playerName env2 <> ""%string ->
  storageOK (store w) = false \/
  (setItemOk env1 = true /\ setItemOk env2 = true) ->
  0 < completedRounds (state w) ->
  length (loadLeaderboard (store w)) + 2 <= 200 ->
  loadLeaderboard (store (finalizeRun env2 (finalizeRun env1 w)))
  ≡ₚ loadLeaderboard (store w)
     ++ [final_entry env1 (state w); final_entry env2 (state w)].
Proof.
  intros Lb N1 N2 Ok R Len.
  destruct (finalizeRun_fields env1 w) as (A & B & _).
  destruct (finalizeRun_counters env1 w) as (C1 & C2 & C3).
  rewrite finalizeRun_load; try assumption; try lia.
  2:{ rewrite A. exact Lb. }
  2:{ rewrite B. tauto. }
  rewrite (finalizeRun_load env1 w); try assumption; try tauto.
  assert (E : final_entry env2 (state (finalizeRun env1 w))
              = final_entry env2 (state w)).
  { unfold final_entry. rewrite C1, C2, C3. reflexivity. }
  rewrite E.
  rewrite (take_ge (Array_sort cmpScore (_ ++ [final_entry env1 _]))).
  2:{ rewrite (Array_sort_perm _), length_app. cbn. lia. }
  rewrite take_ge.
  2:{ rewrite (Array_sort_perm _), length_app, (Array_sort_perm _), length_app.
      cbn. lia. }
  rewrite (Array_sort_perm _), (Array_sort_perm _), <- app_assoc. reflexivity.
Qed.

Lemma finalizeRun_twice_records_twice_witness :
  let c := run script_two_endings config0 in
  pending c = [StrictEnd; Ending] /\
  length (loadLeaderboard (store (world
    (run [(env_at true 4620, Resume 1); (env_at true 4750, Resume 0)] c)))) = 2.
Proof.
  intros c. split; [vm_compute; reflexivity|].
  refine (eq_trans (Permutation_length
    (finalizeRun_twice_records_twice (env_at true 4620) (env_at true 4750)
       (world c) _ _ _ _ _ _)) _).
  - vm_compute. reflexivity.
  - discriminate.
  - discriminate.
  - right. split; reflexivity.
  - vm_compute. lia.
  - vm_compute. lia.
  - vm_compute. reflexivity.
Defined.

(** X8: the row of a score that was just saved.  After a finalization with
    completed rounds the highlight mark is the time of the finalization, and
    the leaderboard drawn at that moment highlights exactly the rows whose
    entry carries that time; such a row is labelled "just now". *)
Theorem new_score_highlighted (f g : Z -> string) env w :
  (0 < completedRounds (state w))%nat -> dateNow env <> 0%Z ->
  let w' := finalizeRun env w in
  lastAddedTs w' = Some (dateNow env) /\
  forall items i row,
    renderLeaderboard f g (dateNow env) w' = Some items ->
    items !! i = Some (LbEntry row) ->
    exists e,
      loadLeaderboard (store w') !! i = Some e /\ (i < 10)%nat /\
      (isNew row = true <-> Score.time e = dateNow env) /\
      (isNew row = true -> lbTime row = "just now"%string).
Proof.
  intros R NZ w'.
  assert (T : lastAddedTs w' = Some (dateNow env)).
  { unfold w'. rewrite finalizeRun_lastAddedTs.
    apply Nat.ltb_lt in R. rewrite R. reflexivity. }
  split; [exact T|]. clearbody w'.
  intros items i row. unfold renderLeaderboard. rewrite T.
  destruct (lbList (store w')); cbn [negb]; [|discriminate].
  destruct (length (loadLeaderboard (store w')) =? 0)%nat.
  - intros E. injection E as <-. destruct i; cbn; discriminate.
  - intros E. injection E as <-. rewrite list_lookup_imap.
    destruct (take 10 (loadLeaderboard (store w')) !! i) as [e|] eqn:L;
      [|discriminate].
    cbn. intros E. injection E as <-.
    apply lookup_take_Some in L as [L I].
    exists e. split; [exact L|]. split; [exact I|]. cbn.
    replace (dateNow env =? 0)%Z with false by (symmetry; apply Z.eqb_neq, NZ).
    cbn [negb andb]. rewrite Z.eqb_eq. split; [tauto|].
    intros ->. unfold formatRelativeTime. rewrite Z.sub_diag. reflexivity.
Qed.

Lemma new_score_highlighted_witness :
  let w := world (run (removelast script_end_after_round1) config0) in
  lastAddedTs (finalizeRun (env_at false 1920) w) = Some 1700000000000%Z.
Proof.
  intros w.
  refine (proj1 (new_score_highlighted (fun _ => ""%string) (fun _ => ""%string)
                   (env_at false 1920) w _ _)).
  - vm_compute. lia.
  - discriminate.
Defined.

End Endings.

(** ** Signals and steps *)

Section Signals.

Lemma randomStep_signal u : (0 <= u < 1)%Q -> signal (randomStep u).
Proof.
  intros [L U]. unfold signal, randomStep. split.
  - apply (Qfloor_resp_le 0). lra.
  - rewrite Zlt_Qlt. eapply Qle_lt_trans; [apply Qfloor_le|].
    change (inject_Z 4) with 4%Q. lra.
Qed.

Lemma stepDuration_step_ok checked s r :
  tone_plain checked -> step_ok (stepDuration checked s r).
Proof.
  intros T. destruct (currentPreset_plain checked T) as [p E].
  unfold step_ok, stepDuration. rewrite E.
  split; [apply stepDurationOf_min|].
  unfold stepDurationOf. cbv zeta.
  pose proof (Q.le_max_l 0 (getRecentAccuracy s - 0.60)) as B.
  assert (R : (0 <= ofNat r)%Q) by (apply (ofNat_le 0); lia).
  revert B R.
  generalize (Qmax 0 (getRecentAccuracy s - 0.60)) (ofNat r). intros b q B R.
  apply Q.max_lub; [lra|].
  destruct (currentPreset_Some checked p E) as [-> |[-> | ->]]; lra.
Qed.

Lemma deref_signal h arr next idx :
  Forall (Forall signal) h -> deref arr h !! next = Some idx -> signal idx.
Proof.
  intros H L. unfold deref in L.
  destruct (h !! arr) as [a|] eqn:E; cbn in L.
  - eapply Forall_lookup_1; [|exact L]. eapply Forall_lookup_1; [exact H|exact E].
  - rewrite lookup_nil in L. discriminate.
Qed.

Lemma new_sequence_signals h : Forall (Forall signal) h ->
  Forall (Forall signal) (h ++ [[]]).
Proof. intros H. apply Forall_app. split; [exact H|repeat constructor]. Qed.

#[local] Hint Resolve new_sequence_signals : core.

Ltac lit_goal :=
  repeat match goal with
  | |- _ /\ _ => split
  | |- Forall _ (_ ++ _) => apply Forall_app
  | |- Forall _ [] => constructor
  | |- Forall _ (_ :: _) => constructor
  | |- True => exact I
  end; cbn; auto.

Lemma playback_lit env arr next dur w :
  Lit w -> step_ok dur ->
  Lit (fst (playback env arr next dur w)) /\
  Forall task_ok (snd (playback env arr next dur w)).
Proof.
  intros [H L] D. unfold playback.
  destruct (deref arr (heap w) !! next) as [idx|] eqn:E.
  - pose proof (deref_signal _ _ _ _ H E) as S. clear E.
    revert H L. break_world w. unfold Lit. cbn. intros H L.
    destruct m; cbn; lit_goal.
  - clear E. revert H L. break_world w. unfold Lit. cbn. auto.
Qed.

Lemma showSequence_lit env w :
  tone_plain (toneChecked env) -> Lit w ->
  Lit (fst (showSequence env w)) /\ Forall task_ok (snd (showSequence env w)).
Proof.
  intros T H. unfold showSequence. apply playback_lit.
  - revert H. break_world w. unfold Lit. cbn. auto.
  - apply stepDuration_step_ok, T.
Qed.

Lemma finalizeRun_lit env w : Lit w -> Lit (finalizeRun env w).
Proof.
  break_world w. unfold finalizeRun, Lit. cbn.
  destruct (0 <? cr); cbn; intros [H L]; auto.
Qed.

Lemma onMainButton_lit env w :
  Lit w ->
  Lit (fst (onMainButton env w)) /\ Forall task_ok (snd (onMainButton env w)).
Proof.
  break_world w. unfold onMainButton, Lit. cbn.
  destruct m; [case_bool_decide| | |]; cbn; intros [Hh Hl]; lit_goal.
Qed.

Lemma nextRound_lit w :
  Lit w -> Lit (fst (nextRound w)) /\ Forall task_ok (snd (nextRound w)).
Proof.
  break_world w. unfold nextRound, Lit. cbn.
  destruct m; cbn; intros [H L]; lit_goal.
Qed.

Lemma handlePadPress_validate_lit env index w :
  Lit w ->
  Lit (fst (handlePadPress_validate env index w)) /\
  Forall task_ok (snd (handlePadPress_validate env index w)).
Proof.
  rewrite handlePadPress_validate_eq. break_world w. unfold Lit. cbn.
  intros [H L]. branches; cbn; lit_goal.
Qed.

Lemma sequence_push_lit x w : signal x -> Lit w -> Lit (sequence_push x w).
Proof.
  intros S [H L]. split; [|exact L]. unfold sequence_push. cbn.
  apply Forall_alter; [exact H|].
  intros a _ A. apply Forall_app. split; [exact A|].
  apply Forall_singleton, S.
Qed.

Lemma resume_lit env t w :
  unit_random env -> tone_plain (toneChecked env) -> task_ok t -> Lit w ->
  Lit (fst (resume env t w)) /\ Forall task_ok (snd (resume env t w)).
Proof.
  intros U P T H. destruct t; cbn [resume fst snd].
  - apply nextRound_lit, H.
  - split; [apply finalizeRun_lit, H|constructor].
  - unfold nextRound_show.
    apply showSequence_lit, sequence_push_lit; [exact P| |exact H].
    apply (randomStep_signal _ U).
  - split; [exact H|]. apply Forall_singleton, T.
  - apply playback_lit; [exact H|exact T].
  - split; [exact H|]. apply Forall_singleton. exact I.
  - apply handlePadPress_validate_lit, H.
  - split; [apply finalizeRun_lit, H|constructor].
  - unfold handlePadPress_retry. apply showSequence_lit; [exact P|].
    revert H. break_world w. unfold Lit. cbn. auto.
  - apply nextRound_lit, H.
Qed.

Lemma spawn_shown pend r :
  Forall task_ok pend -> Lit (fst r) /\ Forall task_ok (snd r) ->
  Shown (spawn pend r).
Proof.
  intros P [L T]. split; [exact L|]. cbn. apply Forall_app. auto.
Qed.

Lemma fire_shown env ev c :
  unit_random env -> tone_plain (toneChecked env) ->
  Shown c -> Shown (fire env ev c).
Proof.
  intros U T [L P]. destruct ev; cbn [fire].
  - destruct (_ || _); [split; assumption|]. apply spawn_shown; [exact P|].
    unfold handlePadPress. destruct (_ || _); cbn; repeat split;
      try apply L; repeat constructor.
  - assert (S : Shown (spawn (pending c) (handlePadPress index (world c)))).
    { apply spawn_shown; [exact P|].
      unfold handlePadPress. destruct (_ || _); cbn; repeat split;
        try apply L; repeat constructor. }
    destruct key; [|exact S]. destruct S as [L' P'].
    apply spawn_shown; [exact P'|]. apply onMainButton_lit, L'.
  - apply spawn_shown; [exact P|]. apply onMainButton_lit, L.
  - split; [|exact P]. revert L. destruct c as [w p]. break_world w.
    unfold Lit. cbn. auto.
  - destruct (pending c !! n) as [t|] eqn:E; [|split; assumption].
    apply spawn_shown.
    + apply Forall_delete, P.
    + apply resume_lit; [exact U|exact T| |exact L].
      eapply Forall_lookup_1; [exact P|exact E].
Qed.

(** X9: with a random source that returns numbers in [0, 1) and tone radios
    whose values name no inherited member of the preset table, every array
    the engine builds holds pad indices 0..3 only, and every playback step
    it presents lights one of the four pads for a number of milliseconds
    between 200 and 828. *)
Theorem playback_presents_pads script lb ok item :
  Forall (fun ee => unit_random (fst ee) /\ tone_plain (toneChecked (fst ee)))
    script ->
  let c := run script (init lb ok item) in
  Forall signal (seq_of (world c)) /\
  Forall (fun p => signal (fst p) /\
                   exists d, snd p = Num d /\ (200 <= d <= 828)%Q)
    (lit (world c)).
Proof.
  intros F c.
  assert (S : Shown c).
  { unfold c. clear c.
    assert (I : Shown (init lb ok item)).
    { split; [|constructor]. split; cbn; repeat constructor. }
    revert I. generalize (init lb ok item).
    induction F as [|[env ev] script [U T] _ IH]; intros c0 I; [exact I|].
    cbn. apply IH, fire_shown; [exact U|exact T|exact I]. }
  destruct S as [[H L] _]. split.
  - unfold seq_of, deref.
    destruct (heap (world c) !! sequence (state (world c))) as [a|] eqn:E; cbn.
    + eapply Forall_lookup_1; [exact H|exact E].
    + constructor.
  - eapply Forall_impl; [exact L|]. intros [i [d|]] [Si Sd]; cbn in *.
    + split; [exact Si|]. exists d. split; [reflexivity|exact Sd].
    + contradiction.
Qed.

Lemma tone_plain_medium : tone_plain (Some "medium"%string).
Proof. exact medium_plain. Qed.

Lemma playback_presents_pads_witness :
  Forall signal (seq_of (world (run script_two_endings config0))).
Proof.
  refine (proj1 (playback_presents_pads script_two_endings true true None _)).
  repeat constructor; cbn; try apply tone_plain_medium; unfold Qle; cbn; lia.
Defined.

End Signals.

(** ** Modes and the main button *)

Section Modes.

Lemma nextRound_mode w : mode (state (fst (nextRound w))) = mode (state w).
Proof. break_world w. unfold nextRound. cbn. destruct m; reflexivity. Qed.

Lemma playback_mode env arr next dur w :
  mode (state (fst (playback env arr next dur w))) = mode (state w).
Proof.
  break_world w. unfold playback. cbn.
  destruct (deref arr h !! next); [destruct m|]; reflexivity.
Qed.

Lemma showSequence_mode env w :
  mode (state (fst (showSequence env w))) = mode (state w).
Proof.
  unfold showSequence. rewrite playback_mode. break_world w. reflexivity.
Qed.

Lemma handlePadPress_validate_mode env index w :
  mode (state (fst (handlePadPress_validate env index w))) = mode (state w).
Proof.
  rewrite handlePadPress_validate_eq. break_world w. cbn.
  branches; reflexivity.
Qed.

Lemma resume_mode env t w :
  mode (state (fst (resume env t w)))
  = match t with Ending | StrictEnd => gameover | _ => mode (state w) end.
Proof.
  destruct t; cbn [resume fst];
    auto using nextRound_mode, finalizeRun_mode, playback_mode,
      handlePadPress_validate_mode.
  - unfold nextRound_show. rewrite showSequence_mode.
    break_world w. reflexivity.
  - unfold handlePadPress_retry. rewrite showSequence_mode.
    break_world w. reflexivity.
Qed.

Lemma onMainButton_mode env w :
  mode (state (fst (onMainButton env w)))
  = match mode (state w) with
    | idle => if bool_decide (playerName env = ""%string) then idle else playing
    | playing => gameending
    | gameending => gameending
    | gameover => idle
    end.
Proof.
  break_world w. unfold onMainButton. cbn.
  destruct m; [case_bool_decide| | |]; reflexivity.
Qed.

(** X10: the mode graph.  An event leaves the mode as it is, or is an
    activation of the main button (its click, or the Enter key, also when a
    pad has the focus) taking [idle] to [playing] (with a name entered),
    [playing] to [gameending] or [gameover] to [idle], or is one of the two
    finalizing continuations, which end in [gameover] whatever the mode
    was.  Pointer presses, the Space key on a pad and the clear button
    never change the mode. *)
Theorem mode_transitions env ev c :
  let m := mode (state (world c)) in
  let m' := mode (state (world (fire env ev c))) in
  m' = m \/
  ((ev = MainButton \/ exists index, ev = PadKeyDown Enter index) /\
   ((m = idle /\ m' = playing /\ playerName env <> ""%string) \/
    (m = playing /\ m' = gameending) \/
    (m = gameover /\ m' = idle))) \/
  (m' = gameover /\
   exists n t, ev = Resume n /\ pending c !! n = Some t /\ finalizes t).
Proof.
  cbv zeta. destruct ev; [| rewrite fire_PadKeyDown_world | | |]; cbn [fire].
  - left. destruct (_ || _); [reflexivity|]. unfold handlePadPress.
    destruct (_ || _); reflexivity.
  - destruct key; [|left; reflexivity]. rewrite onMainButton_mode.
    destruct (mode (state (world c))); [case_bool_decide| | |]; eauto 10.
  - unfold spawn; cbn [world]. rewrite onMainButton_mode.
    destruct (mode (state (world c))); [case_bool_decide| | |]; auto 10.
  - left. destruct c as [w p]. break_world w. reflexivity.
  - destruct (pending c !! n) as [t|] eqn:P; [|left; reflexivity].
    unfold spawn; cbn [world]. rewrite resume_mode.
    destruct t; try (left; reflexivity);
      right; right; (split; [reflexivity|]); eexists n, _;
      unfold finalizes; eauto.
Qed.

(** X11: the main button does nothing at all exactly when the engine is idle
    and no name is entered, or while a run is ending. *)
Theorem main_button_ignored env c :
  fire env MainButton c = c <->
  (mode (state (world c)) = idle /\ playerName env = ""%string) \/
  mode (state (world c)) = gameending.
Proof.
  cbn [fire]. split.
  - intros E. apply (f_equal (fun c => mode (state (world c)))) in E.
    unfold spawn in E; cbn [world] in E. rewrite onMainButton_mode in E.
    destruct (mode (state (world c))); [case_bool_decide| | |];
      auto; discriminate.
  - intros [[M N]|M]; unfold onMainButton; rewrite M.
    + rewrite bool_decide_eq_true_2 by exact N. apply spawn_nothing.
    + apply spawn_nothing.
Qed.

(** X12: the name gate.  The main button is shown disabled exactly when the
    engine is idle and the name is empty, which is when the hint asks for a
    name; an activation that arrives all the same (the global Enter key
    calls the same handler) changes nothing. *)
Theorem start_gate env c :
  (updateStartEnabled env (state (world c)) = true <->
   mode (state (world c)) = idle /\ playerName env = ""%string) /\
  (updateStartEnabled env (state (world c)) = true ->
   updateIdleHint env = "Enter your name to start"%string /\
   fire env MainButton c = c).
Proof.
  assert (L : forall s : string, (0 <? String.length s)%nat = false <-> s = ""%string).
  { intros s. rewrite Nat.ltb_ge.
    destruct s; cbn; split; intros; try lia; congruence. }
  assert (A : updateStartEnabled env (state (world c)) = true <->
              mode (state (world c)) = idle /\ playerName env = ""%string).
  { unfold updateStartEnabled. destruct (mode (state (world c))).
    - rewrite negb_true_iff, L. tauto.
    - split; [discriminate|intros [? _]; discriminate].
    - split; [discriminate|intros [? _]; discriminate].
    - split; [discriminate|intros [? _]; discriminate]. }
  split; [exact A|]. intros H. apply A in H as [M N]. split.
  - unfold updateIdleHint. apply L in N. rewrite N. reflexivity.
  - cbn [fire]. unfold onMainButton. rewrite M.
    rewrite bool_decide_eq_true_2 by exact N. apply spawn_nothing.
Qed.

Lemma start_gate_witness :
  fire (mkEnv "" false None 0 0%Z 0 true) MainButton config0 = config0.
Proof.
  refine (proj2 (proj2 (start_gate (mkEnv "" false None 0 0%Z 0 true) config0) _)).
  reflexivity.
Defined.

(** X13: a playback that finds the mode changed stops: it presents nothing
    more and schedules nothing, and [showing] is cleared.  The pads keep
    their state if elements were left; if the array was exhausted the pads
    are enabled all the same, whatever the mode. *)
Theorem playback_cancelled env arr next dur w :
  mode (state w) <> playing ->
  let r := playback env arr next dur w in
  snd r = [] /\ lit (fst r) = lit w /\ showing (state (fst r)) = false /\
  accepting (state (fst r))
  = (if (next <? length (deref arr (heap w)))%nat then accepting (state w)
     else true).
Proof.
  intros M. cbv zeta. unfold playback.
  destruct (deref arr (heap w) !! next) as [idx|] eqn:E.
  - apply lookup_lt_Some in E. apply Nat.ltb_lt in E. rewrite E. clear E.
    revert M. break_world w. cbn. destruct m; cbn; intros M;
      try contradiction; repeat split; reflexivity.
  - apply lookup_ge_None in E. apply Nat.ltb_ge in E. rewrite E. clear E.
    break_world w. repeat split; reflexivity.
Qed.

Lemma playback_cancelled_witness :
  let w := world (run script_two_endings config0) in
  let r := playback (env_at true 4800) 2 2 (Num 478) w in
  snd r = [] /\ lit (fst r) = lit w /\ showing (state (fst r)) = false /\
  accepting (state (fst r))
  = (if (2 <? length (deref 2 (heap w)))%nat then accepting (state w)
     else true).
Proof.
  intros w. apply playback_cancelled. vm_compute. discriminate.
Defined.

End Modes.

(** ** When pads are lit and enabled *)

Section Presentation.

Lemma playback_quiet env arr next dur w :
  mode (state w) <> playing ->
  lit (fst (playback env arr next dur w)) = lit w.
Proof.
  break_world w. unfold playback. cbn.
  destruct (deref arr h !! next); [destruct m|]; cbn; intros M;
    try contradiction; reflexivity.
Qed.

Lemma showSequence_quiet env w :
  mode (state w) <> playing ->
  lit (fst (showSequence env w)) = lit w.
Proof.
  intros M. unfold showSequence. rewrite playback_quiet.
  - break_world w. reflexivity.
  - revert M. break_world w. cbn. auto.
Qed.

Lemma resume_quiet env t w :
  mode (state w) <> playing ->
  lit (fst (resume env t w)) = lit w.
Proof.
  intros M. destruct t; cbn [resume fst]; try reflexivity.
  - break_world w. unfold nextRound. cbn. destruct m; reflexivity.
  - break_world w. unfold finalizeRun. cbn. destruct (0 <? cr); reflexivity.
  - unfold nextRound_show. rewrite showSequence_quiet.
    + break_world w. reflexivity.
    + revert M. break_world w. cbn. auto.
  - apply playback_quiet, M.
  - rewrite handlePadPress_validate_eq. break_world w. cbn.
    branches; reflexivity.
  - break_world w. unfold finalizeRun. cbn. destruct (0 <? cr); reflexivity.
  - unfold handlePadPress_retry. rewrite showSequence_quiet.
    + break_world w. reflexivity.
    + revert M. break_world w. cbn. auto.
  - break_world w. unfold nextRound. cbn. destruct m; reflexivity.
Qed.

(** X14: nothing is presented outside a run.  An event that finds the mode
    other than [playing] lights no pad, whatever continuations are still
    pending from an earlier playback. *)
Theorem presents_only_while_playing env ev c :
  mode (state (world c)) <> playing ->
  lit (world (fire env ev c)) = lit (world c).
Proof.
  intros M. destruct ev; [| rewrite fire_PadKeyDown_world | | |]; cbn [fire].
  - destruct (_ || _); [reflexivity|]. unfold handlePadPress.
    destruct (_ || _); reflexivity.
  - destruct key; [|reflexivity]. break_world (world c). unfold onMainButton.
    cbn. destruct m; [case_bool_decide| | |]; reflexivity.
  - destruct c as [w p]. break_world w. unfold spawn, onMainButton. cbn.
    destruct m; [case_bool_decide| | |]; reflexivity.
  - destruct c as [w p]. break_world w. reflexivity.
  - destruct (pending c !! n); [|reflexivity].
    unfold spawn; cbn [world fst]. apply resume_quiet, M.
Qed.

Lemma presents_only_while_playing_witness :
  let c := run script_two_endings config0 in
  lit (world (fire (env_at true 4620) (Resume 1) c)) = lit (world c).
Proof.
  intros c. apply presents_only_while_playing. vm_compute. discriminate.
Defined.

Lemma playback_accepting env arr next dur w :
  accepting (state (fst (playback env arr next dur w))) = true ->
  accepting (state w) = true \/ length (deref arr (heap w)) <= next.
Proof.
  unfold playback. destruct (deref arr (heap w) !! next) eqn:E.
  - break_world w. cbn. destruct m; cbn; auto.
  - intros _. right. apply lookup_ge_None, E.
Qed.

Lemma showSequence_accepting env w :
  accepting (state (fst (showSequence env w))) = true -> seq_of w = [].
Proof.
  unfold showSequence. intros H. apply playback_accepting in H.
  revert H. unfold seq_of. break_world w. cbn. intros [H|H]; [discriminate|].
  apply nil_length_inv. lia.
Qed.

(** X15: the pads are switched on by a finishing playback only.  In a
    reachable configuration, an event after which the pads accept input
    either found them accepting, or resumed a playback step whose array was
    exhausted, or resumed the retry of a sequence that is empty by now. *)
Theorem pads_enabled_by_playback_only env ev c :
  reachable c ->
  accepting (state (world (fire env ev c))) = true ->
  accepting (state (world c)) = true \/
  exists n, ev = Resume n /\
    ((exists arr next dur, pending c !! n = Some (StepGap arr next dur) /\
                           length (deref arr (heap (world c))) <= next) \/
     (pending c !! n = Some Retry /\ seq_of (world c) = [])).
Proof.
  intros R. pose proof (reachable_inv c R) as (S & _).
  destruct ev; [| rewrite fire_PadKeyDown_world | | |]; cbn [fire].
  - destruct (_ || _); [auto|]. unfold handlePadPress.
    destruct (_ || _); auto.
  - destruct key; [|auto]. break_world (world c). unfold onMainButton. cbn.
    destruct m; [case_bool_decide| | |]; cbn; auto; discriminate.
  - destruct c as [w p]. break_world w. unfold spawn, onMainButton. cbn.
    destruct m; [case_bool_decide| | |]; cbn; auto; discriminate.
  - destruct c as [w p]. break_world w. cbn. auto.
  - destruct (pending c !! n) as [t|] eqn:P; [|auto].
    unfold spawn; cbn [world fst].
    destruct t; cbn [resume fst].
    + break_world (world c). unfold nextRound. cbn. destruct m; cbn; auto.
    + destruct (finalizeRun_cleared env (world c)) as (_ & A & _).
      rewrite A. discriminate.
    + unfold nextRound_show. intros H. apply showSequence_accepting in H.
      exfalso. revert H. unfold seq_of, sequence_push. cbn.
      rewrite deref_push by exact S. intros H.
      apply (f_equal length) in H. rewrite length_app in H. cbn in H. lia.
    + auto.
    + intros H. apply playback_accepting in H as [H|H]; [auto|].
      right. exists n. split; [reflexivity|]. left. eauto.
    + auto.
    + rewrite handlePadPress_validate_eq. break_world (world c). cbn.
      branches; cbn; auto; discriminate.
    + destruct (finalizeRun_cleared env (world c)) as (_ & A & _).
      rewrite A. discriminate.
    + unfold handlePadPress_retry. intros H.
      apply showSequence_accepting in H.
      right. exists n. split; [reflexivity|]. right. split; [exact P|].
      revert H. unfold seq_of. break_world (world c). cbn. auto.
    + break_world (world c). unfold nextRound. cbn. destruct m; cbn; auto.
Qed.

Lemma pads_enabled_by_playback_only_witness :
  let c := run (removelast script_round1) config0 in
  accepting (state (world c)) = true \/
  exists n, (Resume 0 : Event) = Resume n /\
    ((exists arr next dur, pending c !! n = Some (StepGap arr next dur) /\
                           length (deref arr (heap (world c))) <= next) \/
     (pending c !! n = Some Retry /\ seq_of (world c) = [])).
Proof.
  intros c. apply (pads_enabled_by_playback_only (env_at false 1460)).
  - apply reachable_run, reach_init.
  - vm_compute. reflexivity.
Defined.

End Presentation.

(** ** A round from advance to completion *)

Section Rounds.



End Rounds.

Section Reproduce.

Lemma press_events_run index e c :
  pending c = [] -> mode (state (world c)) = playing ->
  accepting (state (world c)) = true ->
  run (press_events index e) c
  = spawn [] (handlePadPress_validate e.2 index (world c)).
Proof.
  intros P M A. destruct c as [w p]. cbn in P, M, A. subst p.
  unfold press_events, run. cbn [fold_left fst snd fire world pending].
  rewrite M, A. cbn [Mode_eqb negb orb]. unfold handlePadPress.
  rewrite M, A. cbn [Mode_eqb negb orb]. reflexivity.
Qed.

Lemma match_effect env index w :
  seq_of w !! inputIndex (state w) = Some index ->
  let r := handlePadPress_validate env index w in
  mode (state (fst r)) = mode (state w) /\
  seq_of (fst r) = seq_of w /\
  round (state (fst r)) = round (state w) /\
  inputIndex (state (fst r)) = inputIndex (state w) + 1 /\
  runInputs (state (fst r)) = runInputs (state w) + 1 /\
  runCorrect (state (fst r)) = runCorrect (state w) + 1 /\
  if (inputIndex (state w) + 1 =? length (seq_of w))%nat
  then snd r = [RoundDone] /\ accepting (state (fst r)) = false /\
       completedRounds (state (fst r))
       = Nat.max (completedRounds (state w)) (round (state w))
  else snd r = [] /\ accepting (state (fst r)) = accepting (state w) /\
       completedRounds (state (fst r)) = completedRounds (state w).
Proof.
  intros E. cbv zeta. rewrite handlePadPress_validate_eq.
  rewrite (bool_decide_eq_true_2 _ E). cbn [negb]. cbv zeta.
  destruct (inputIndex (state w) + 1 =? length (seq_of w))%nat;
    destruct (_ && _); unfold seq_of; break_world w; cbn;
    repeat split; reflexivity.
Qed.

(** X17: reproducing the sequence completes the round.  With the pads
    accepting, presses that match the rest of the sequence, each handled
    before the next arrives, are all counted as correct; the last one marks
    the round completed, switches the pads off and schedules the next round;
    the sequence and the round number are as before. *)
Theorem reproducing_completes_round ps : forall c,
  pending c = [] -> mode (state (world c)) = playing ->
  accepting (state (world c)) = true ->
  ps <> [] ->
  map fst ps = drop (inputIndex (state (world c))) (seq_of (world c)) ->
  let c' := run (presses ps) c in
  pending c' = [RoundDone] /\
  mode (state (world c')) = playing /\
  accepting (state (world c')) = false /\
  inputIndex (state (world c')) = length (seq_of (world c)) /\
  seq_of (world c') = seq_of (world c) /\
  round (state (world c')) = round (state (world c)) /\
  completedRounds (state (world c'))
  = Nat.max (completedRounds (state (world c))) (round (state (world c))) /\
  runInputs (state (world c')) = runInputs (state (world c)) + length ps /\
  runCorrect (state (world c')) = runCorrect (state (world c)) + length ps.
Proof.
  induction ps as [|p ps IH]; intros c P M A NE D; [contradiction|].
  cbv zeta.
  assert (E : run (presses (p :: ps)) c
              = run (presses ps)
                  (spawn [] (handlePadPress_validate p.2.2 p.1 (world c)))).
  { change (presses (p :: ps)) with (press_events p.1 p.2 ++ presses ps).
    unfold run. rewrite fold_left_app. fold (run (press_events p.1 p.2) c).
    rewrite press_events_run by assumption. reflexivity. }
  rewrite E. clear E.
  set (i := inputIndex (state (world c))) in *.
  set (sq := seq_of (world c)) in *.
  assert (L : sq !! i = Some p.1).
  { rewrite <- (Nat.add_0_r i), <- lookup_drop, <- D. reflexivity. }
  assert (D' : map fst ps = drop (i + 1) sq).
  { rewrite (drop_S _ _ _ L) in D. cbn in D. injection D as D.
    rewrite Nat.add_1_r. exact D. }
  assert (Len : length sq = i + 1 + length ps).
  { apply (f_equal length) in D'. rewrite length_map, length_drop in D'.
    apply lookup_lt_Some in L. lia. }
  destruct (match_effect p.2.2 p.1 (world c) L)
    as (M1 & S1 & R1 & I1 & RI1 & RC1 & B).
  fold i sq in I1, S1, B.
  set (r := handlePadPress_validate p.2.2 p.1 (world c)) in *.
  destruct ps as [|q ps].
  - replace (i + 1 =? length sq)%nat with true in B
      by (symmetry; apply Nat.eqb_eq; cbn in Len; lia).
    destruct B as (T & A1 & C1).
    cbn [presses flat_map run fold_left]. unfold spawn.
    cbn [world pending app]. rewrite T.
    cbn [length] in *. rewrite M1, A1, I1, S1, R1, C1, RI1, RC1, M.
    repeat split; try reflexivity. lia.
  - replace (i + 1 =? length sq)%nat with false in B
      by (symmetry; apply Nat.eqb_neq; cbn in Len; lia).
    destruct B as (T & A1 & C1).
    specialize (IH (spawn [] r)).
    unfold spawn in IH |- *. cbn [world pending app] in IH |- *.
    rewrite T, M1, A1, I1, S1 in IH.
    destruct IH as (X1 & X2 & X3 & X4 & X5 & X6 & X7 & X8 & X9);
      try assumption; try reflexivity; try discriminate.
    rewrite T. rewrite X1, X2, X3, X4, X5, X6, X7, X8, X9.
    rewrite R1, C1, RI1, RC1. cbn [length].
    repeat split; try reflexivity; lia.
Qed.

Lemma reproducing_completes_round_witness :
  let c := run script_round1 config0 in
  let e := env_at false 1730 in
  let c' := run (presses [(2%Z, (e, e, e))]) c in
  pending c' = [RoundDone] /\
  mode (state (world c')) = playing /\
  accepting (state (world c')) = false /\
  inputIndex (state (world c')) = length (seq_of (world c)) /\
  seq_of (world c') = seq_of (world c) /\
  round (state (world c')) = round (state (world c)) /\
  completedRounds (state (world c'))
  = Nat.max (completedRounds (state (world c))) (round (state (world c))) /\
  runInputs (state (world c')) = runInputs (state (world c)) + 1 /\
  runCorrect (state (world c')) = runCorrect (state (world c)) + 1.
Proof.
  intros c e.
  apply (reproducing_completes_round [(2%Z, (e, e, e))] c).
  - vm_compute. reflexivity.
  - vm_compute. reflexivity.
  - vm_compute. reflexivity.
  - discriminate.
  - vm_compute. reflexivity.
Defined.

End Reproduce.

(** ** The statistics card *)

Section StatsCard.

Lemma Math_round_percent x : (0 <= x <= 1)%Q -> (0 <= Math_round (x * 100) <= 100)%Z.
Proof.
  intros [L U]. unfold Math_round. split.
  - apply (Qfloor_resp_le 0). lra.
  - apply (Qfloor_resp_le _ (100 + (1 # 2))). lra.
Qed.

(** X18: the accuracy card in a reachable state.  Before the first input of a
    run it shows the dash and an empty bar; afterwards it shows a whole
    percentage between 0 and 100, the same in the text, the bar width and
    [aria-valuenow], and the footnote counts the inputs of the run up to the
    window size of 20. *)
Theorem accuracy_card_reachable c :
  reachable c ->
  let s := state (world c) in
  (runInputs s = 0 ->
   displayAccuracyValue s
   = mkAccuracyView "—" "0%" "0" "Based on last 0 inputs") /\
  (0 < runInputs s ->
   exists p : Z,
     (0 <= p <= 100)%Z /\
     displayAccuracyValue s
     = mkAccuracyView (pretty p ++ "%")%string (pretty p ++ "%")%string
         (pretty p)
         ("Based on last " ++ pretty (Nat.min (runInputs s) 20) ++ " inputs")%string).
Proof.
  intros R s.
  destruct (reachable_tally c R) as (_ & L & _). fold s in L.
  destruct (reachable_inv c R) as (_ & _ & _ & _ & _ & _ & _ & _ & B). fold s in B.
  unfold displayAccuracyValue. rewrite L. split.
  - intros ->. reflexivity.
  - intros P. replace (Nat.min (runInputs s) 20 =? 0)%nat with false
      by (symmetry; apply Nat.eqb_neq; lia).
    exists (Math_round (getRecentAccuracy s * 100)). split; [|reflexivity].
    apply Math_round_percent, getRecentAccuracy_range, B.
Qed.

Lemma accuracy_card_reachable_witness :
  exists p : Z,
    (0 <= p <= 100)%Z /\
    accValue (displayAccuracyValue
                (state (world (run script_two_endings config0))))
    = (pretty p ++ "%")%string.
Proof.
  destruct (proj2 (accuracy_card_reachable (run script_two_endings config0)
              (reachable_run _ _ (reach_init true true None))))
    as (p & B & E); [vm_compute; lia|].
  exists p. split; [exact B|]. rewrite E. reflexivity.
Defined.

End StatsCard.

Section ReactionSample.

Lemma toInt32_floor ms :
  (0 <= ms)%Q -> (ms < 2147483648)%Q -> toInt32 ms = Qfloor ms.
Proof.
  intros L U. unfold toInt32, Qfloor. destruct ms as [n d].
  cbn [Qnum Qden]. unfold Qle, Qlt in *. cbn in L, U.
  assert (N : (0 <= n)%Z) by lia.
  rewrite Z.quot_div_nonneg by lia.
  assert (B : (0 <= n / Z.pos d < 2147483648)%Z).
  { split; [apply Z.div_pos; lia|].
    apply Z.div_lt_upper_bound; lia. }
  change (2 ^ 32)%Z with 4294967296%Z. change (2 ^ 31)%Z with 2147483648%Z.
  rewrite Z.mod_small by lia.
  destruct (Z.leb_spec 2147483648 (n / Z.pos d)); [lia|reflexivity].
Qed.

Lemma toInt32_wraps ms :
  (2147483648 <= ms)%Q -> (ms < 4294967296)%Q -> (toInt32 ms < 0)%Z.
Proof.
  intros L U. unfold toInt32. destruct ms as [n d].
  cbn [Qnum Qden]. unfold Qle, Qlt in *. cbn in L, U.
  assert (N : (0 <= n)%Z) by lia.
  rewrite Z.quot_div_nonneg by lia.
  assert (B : (2147483648 <= n / Z.pos d < 4294967296)%Z).
  { split; [apply Z.div_le_lower_bound; lia|].
    apply Z.div_lt_upper_bound; lia. }
  change (2 ^ 32)%Z with 4294967296%Z. change (2 ^ 31)%Z with 2147483648%Z.
  rewrite Z.mod_small by lia.
  destruct (Z.leb_spec 2147483648 (n / Z.pos d)); lia.
Qed.

Lemma last_lastn {A} n (l : list A) x : 0 < n -> last (lastn n (l ++ [x])) = Some x.
Proof.
  intros H. unfold lastn. rewrite length_app. cbn [length].
  rewrite drop_app_le by lia. apply last_snoc.
Qed.

(** X19: the sample [pushReaction] stores for a reaction time [ms].  Below
    2^31 ms it is the whole number of milliseconds, at least 50 and at most
    2000; from 2^31 ms on the conversion [ms | 0] wraps to a negative
    number, and the sample is 50. *)
Theorem reaction_sample ms s :
  rtWindow s = 24 -> length (rts s) <= 24 -> (0 <= ms)%Q ->
  ((ms < 2147483648)%Q ->
   last (rts (pushReaction ms s)) = Some (Z.max 50 (Z.min 2000 (Qfloor ms)))) /\
  ((2147483648 <= ms)%Q -> (ms < 4294967296)%Q ->
   last (rts (pushReaction ms s)) = Some 50%Z).
Proof.
  intros W L P. rewrite pushReaction_rts by lia. rewrite W, last_lastn by lia.
  split.
  - intros U. rewrite toInt32_floor by assumption. reflexivity.
  - intros A B. pose proof (toInt32_wraps ms A B). f_equal. lia.
Qed.

Lemma reaction_sample_witness :
  last (rts (pushReaction 270.5 state0)) = Some 270%Z.
Proof.
  refine (proj1 (reaction_sample 270.5 state0 eq_refl _ _) _).
  - cbn. lia.
  - unfold Qle. cbn. lia.
  - unfold Qlt. cbn. lia.
Defined.

End ReactionSample.

Section RoundTrip.

(** X20: what [loadLeaderboard] returns after [saveLeaderboard]: the saved
    list cut to its first 200 entries, from memory when storage is disabled
    and from the stored item otherwise; the former list if the write failed;
    nothing if the page has no list element. *)
Theorem save_then_load ok l st :
  loadLeaderboard (saveLeaderboard ok l st)
  = if lbList st
    then if storageOK st
         then if ok then take 200 l else loadLeaderboard st
         else take 200 l
    else [].
Proof.
  destruct st as [lb sok mem item]. unfold saveLeaderboard, loadLeaderboard.
  cbn. destruct lb, sok, ok; reflexivity.
Qed.

End RoundTrip.

(** ** The sparkline *)

Section Sparkline.
Local Open Scope Q_scope.

Lemma fold_min_le l : forall a,
  (fold_left Z.min l a <= a)%Z /\ Forall (fun x => (fold_left Z.min l a <= x)%Z) l.
Proof.
  induction l as [|y l IH]; intros a; cbn [fold_left].
  - split; [lia|constructor].
  - destruct (IH (Z.min a y)) as [A F]. split; [lia|].
    constructor; [lia|exact F].
Qed.

Lemma fold_max_ge l : forall a,
  (a <= fold_left Z.max l a)%Z /\ Forall (fun x => (x <= fold_left Z.max l a)%Z) l.
Proof.
  induction l as [|y l IH]; intros a; cbn [fold_left].
  - split; [lia|constructor].
  - destruct (IH (Z.max a y)) as [A F]. split; [lia|].
    constructor; [lia|exact F].
Qed.

Lemma min_max_bounds v :
  Forall (fun x => (Math_min_list v <= x <= Math_max_list v)%Z) v.
Proof.
  destruct v as [|a l]; [constructor|]. cbn [Math_min_list Math_max_list].
  destruct (fold_min_le l a) as [A F], (fold_max_ge l a) as [B G].
  constructor; [lia|].
  apply Forall_and. split; assumption.
Qed.

Lemma min_max_clamped v :
  v <> [] -> Forall clamped v ->
  clamped (Math_min_list v) /\ clamped (Math_max_list v).
Proof.
  intros NE F. destruct v as [|a l]; [contradiction|]. clear NE.
  cbn [Math_min_list Math_max_list]. apply Forall_cons in F as [A F].
  unfold clamped in *. split; revert a A;
    induction F as [|y l Y _ IH]; intros a A; cbn [fold_left];
    try lia; apply IH; lia.
Qed.

Lemma sum_bounds lo hi l :
  Forall (fun x => (lo <= x <= hi)%Z) l ->
  forall a, (a + Z.of_nat (length l) * lo <= fold_left Z.add l a
             <= a + Z.of_nat (length l) * hi)%Z.
Proof.
  induction 1 as [|x l [L U] _ IH]; intros a; cbn [fold_left length].
  - lia.
  - specialize (IH (a + x)%Z). lia.
Qed.

Lemma unit_scale t y : 0 <= t <= 1 -> 0 <= y -> 0 <= t * y <= y.
Proof.
  intros [L U] Y. split.
  - apply Qmult_le_0_compat; assumption.
  - rewrite <- (Qmult_1_l y) at 2. apply Qmult_le_compat_r; assumption.
Qed.

Lemma unit_fraction a m : 0 <= a -> a <= m -> 0 <= (a / Qmax 1 m) <= 1.
Proof.
  intros A M.
  assert (D1 : 1 <= Qmax 1 m) by apply Q.le_max_l.
  assert (D2 : m <= Qmax 1 m) by apply Q.le_max_r.
  assert (P : 0 < Qmax 1 m) by lra.
  split.
  - apply Qle_shift_div_l; [exact P|]. lra.
  - apply Qle_shift_div_r; [exact P|]. lra.
Qed.

Lemma inject_Z_sub x y : inject_Z (x - y) == inject_Z x - inject_Z y.
Proof.
  unfold Z.sub, Qminus. rewrite inject_Z_plus, inject_Z_opp. reflexivity.
Qed.

(** A rounded result stays on the same side of a whole number. *)
Lemma rounding_ge fl z x :
  rounding fl -> (Z.abs z <= 2 ^ 53)%Z -> inject_Z z <= x -> inject_Z z <= fl x.
Proof.
  intros [M I] B L. rewrite <- (I z B). apply M, L.
Qed.

Lemma rounding_le fl z x :
  rounding fl -> (Z.abs z <= 2 ^ 53)%Z -> x <= inject_Z z -> fl x <= inject_Z z.
Proof.
  intros [M I] B L. rewrite <- (I z B). apply M, L.
Qed.

Lemma rounding_nonneg fl x : rounding fl -> 0 <= x -> 0 <= fl x.
Proof. intros R L. apply (rounding_ge fl 0); [exact R|cbn; lia|exact L]. Qed.

Lemma rounding_compat fl x y : rounding fl -> x == y -> fl x == fl y.
Proof.
  intros [M _] E. apply Qle_antisym; apply M; rewrite E; apply Qle_refl.
Qed.

Lemma rounding_to_grid : rounding to_grid.
Proof.
  split.
  - intros x y L. unfold to_grid.
    assert (F : (Qfloor (x * 1024) <= Qfloor (y * 1024))%Z)
      by (apply Qfloor_resp_le; lra).
    revert F. generalize (Qfloor (x * 1024)) (Qfloor (y * 1024)).
    intros a b F. unfold Qle. cbn. lia.
  - intros z _. unfold to_grid.
    assert (E : Qfloor (inject_Z z * 1024) = (z * 1024)%Z).
    { change 1024 with (inject_Z 1024). rewrite <- inject_Z_mult.
      apply Qfloor_Z. }
    rewrite E. unfold Qeq. cbn [Qnum Qden inject_Z]. lia.
Qed.

Lemma mapY_inside fl (innerH mn mx : Z) (val : Q) :
  rounding fl ->
  (0 <= innerH)%Z -> (3 + innerH <= 2 ^ 53)%Z ->
  (0 <= mx - mn <= 2 ^ 53)%Z ->
  inject_Z mn <= val -> val <= inject_Z mx ->
  3 <= fl (inject_Z (3 + innerH)
           - fl (fl (fl (val - inject_Z mn) / Qmax 1 (inject_Z (mx - mn)))
                 * inject_Z innerH))
    <= inject_Z (3 + innerH).
Proof.
  intros R I B D L U.
  set (t0 := fl (val - inject_Z mn)).
  assert (T0 : 0 <= t0 <= inject_Z (mx - mn)).
  { split.
    - apply rounding_nonneg; [exact R|]. lra.
    - apply rounding_le; [exact R|lia|]. rewrite inject_Z_sub. lra. }
  set (t1 := fl (t0 / Qmax 1 (inject_Z (mx - mn)))).
  assert (T1 : 0 <= t1 <= 1).
  { pose proof (unit_fraction t0 (inject_Z (mx - mn)) (proj1 T0) (proj2 T0))
      as [A C].
    split.
    - apply rounding_nonneg; [exact R|exact A].
    - apply (rounding_le fl 1); [exact R|cbn; lia|exact C]. }
  set (t2 := fl (t1 * inject_Z innerH)).
  assert (IQ : 0 <= inject_Z innerH).
  { change 0 with (inject_Z 0). rewrite <- Zle_Qle. exact I. }
  assert (T2 : 0 <= t2 <= inject_Z innerH).
  { pose proof (unit_scale t1 (inject_Z innerH) T1 IQ) as [A C].
    split.
    - apply rounding_nonneg; [exact R|exact A].
    - apply rounding_le; [exact R|lia|exact C]. }
  assert (S : inject_Z (3 + innerH) == 3 + inject_Z innerH).
  { rewrite inject_Z_plus. reflexivity. }
  split.
  - apply (rounding_ge fl 3); [exact R|cbn; lia|]. rewrite S.
    change (inject_Z 3) with 3. lra.
  - apply rounding_le; [exact R|lia|]. lra.
Qed.

Lemma last_default {A} (l : list A) d x : last l = Some x -> List.last l d = x.
Proof.
  revert d. induction l as [|a l IH]; intros d; [discriminate|].
  destruct l as [|b l]; cbn.
  - intros E. injection E as <-. reflexivity.
  - intros E. change (List.last (b :: l) d = x). apply IH. exact E.
Qed.

(** X21: the sparkline in doubles.  For a rounding [fl] of the arithmetic,
    a canvas of at least 4 by 6 pixels and a non-empty history of samples
    as [pushReaction] stores them, one point is plotted per sample; no
    point lies left of the padding of 2 pixels; every point and the average
    guide lie between the paddings of 3 pixels above and below; the
    highlighted dot is the last plotted point.  (Nothing is stated about
    the right edge: the rounded abscissa of the last point can exceed the
    padding there.) *)
Theorem sparkline_inside fl (w h : Z) (v : list Z) :
  rounding fl -> v <> [] -> Forall clamped v ->
  (4 <= w)%Z -> (6 <= h <= 2 ^ 32)%Z ->
  exists sp,
    drawRtSpark fl w h v = SparkDrawn sp /\
    length (plot sp) = length v /\
    Forall (fun p => 2 <= fst p /\ 3 <= snd p <= inject_Z (h - 3)) (plot sp) /\
    3 <= avgY sp <= inject_Z (h - 3) /\
    exists p, last (plot sp) = Some p /\
              fst p == fst (lastDot sp) /\ snd p == snd (lastDot sp).
Proof.
  intros R NE C W H. unfold drawRtSpark.
  replace (length v =? 0)%nat with false
    by (symmetry; apply Nat.eqb_neq; destruct v; [contradiction|discriminate]).
  cbv zeta. eexists. split; [reflexivity|]. cbn [plot avgY lastDot fst snd].
  pose proof (min_max_bounds v) as MM.
  destruct (min_max_clamped v NE C) as [Cmin Cmax]. unfold clamped in Cmin, Cmax.
  assert (N : (0 < length v)%nat) by (destruct v; [contradiction|cbn; lia]).
  assert (MX : (Math_min_list v <= Math_max_list v)%Z).
  { destruct v as [|a l]; [contradiction|].
    apply Forall_cons in MM as [MM _]. lia. }
  assert (E3 : (3 + (h - 3 * 2) = h - 3)%Z) by lia.
  rewrite E3.
  assert (Y : forall val, inject_Z (Math_min_list v) <= val ->
                val <= inject_Z (Math_max_list v) ->
                3 <= fl (inject_Z (h - 3)
                         - fl (fl (fl (val - inject_Z (Math_min_list v))
                                   / Qmax 1 (inject_Z (Math_max_list v
                                                       - Math_min_list v)))
                               * inject_Z (h - 3 * 2)))
                  <= inject_Z (h - 3)).
  { intros val L U. rewrite <- E3.
    apply mapY_inside; try assumption; lia. }
  split; [apply length_imap|]. split; [|split].
  - apply Forall_lookup. intros i p. rewrite list_lookup_imap.
    destruct (v !! i) as [x|] eqn:E; [|discriminate]. cbn.
    intros P. injection P as <-. cbn [fst snd].
    pose proof (Forall_lookup_1 _ _ _ _ MM E) as [L U]. cbn in L, U.
    split.
    + apply (rounding_ge fl 2); [exact R|cbn; lia|].
      assert (S : 0 <= fl (inject_Z (w - 2 * 2) / Qmax 1 (ofNat (length v) - 1))).
      { apply rounding_nonneg; [exact R|].
        assert (D : 1 <= Qmax 1 (ofNat (length v) - 1)) by apply Q.le_max_l.
        apply Qle_shift_div_l; [lra|]. rewrite Qmult_0_l.
        change 0 with (inject_Z 0). rewrite <- Zle_Qle. lia. }
      assert (P : 0 <= fl (ofNat i
                  * fl (inject_Z (w - 2 * 2) / Qmax 1 (ofNat (length v) - 1)))).
      { apply rounding_nonneg; [exact R|].
        apply Qmult_le_0_compat; [apply (ofNat_le 0); lia|exact S]. }
      change (inject_Z 2) with 2. lra.
    + apply Y; rewrite <- Zle_Qle; assumption.
  - pose proof (sum_bounds _ _ _ MM 0%Z) as [L U].
    assert (P : 0 < ofNat (length v)).
    { unfold ofNat. change 0 with (inject_Z 0). rewrite <- Zlt_Qlt. lia. }
    apply Y.
    + apply rounding_ge; [exact R|lia|].
      apply Qle_shift_div_l; [exact P|]. unfold ofNat.
      rewrite <- inject_Z_mult, <- Zle_Qle. lia.
    + apply rounding_le; [exact R|lia|].
      apply Qle_shift_div_r; [exact P|]. unfold ofNat.
      rewrite <- inject_Z_mult, <- Zle_Qle. lia.
  - destruct (last v) as [x|] eqn:E.
    2:{ apply last_None in E. contradiction. }
    eexists. split.
    + rewrite last_lookup, length_imap, list_lookup_imap.
      rewrite <- last_lookup, E. reflexivity.
    + cbn [fst snd]. rewrite (last_default v 0%Z x E). split; [|reflexivity].
      assert (O : ofNat (Init.Nat.pred (length v)) == ofNat (length v) - 1).
      { unfold ofNat. change 1 with (inject_Z 1). rewrite <- inject_Z_sub.
        apply inject_Z_injective. lia. }
      apply rounding_compat; [exact R|].
      apply Qplus_comp; [reflexivity|].
      apply rounding_compat; [exact R|]. rewrite O. reflexivity.
Qed.

Lemma sparkline_inside_witness :
  exists sp,
    drawRtSpark to_grid 120 28 [270; 435; 300]%Z = SparkDrawn sp /\
    length (plot sp) = 3%nat /\
    Forall (fun p => 2 <= fst p /\ 3 <= snd p <= inject_Z (28 - 3)) (plot sp) /\
    3 <= avgY sp <= inject_Z (28 - 3) /\
    exists p, last (plot sp) = Some p /\
              fst p == fst (lastDot sp) /\ snd p == snd (lastDot sp).
Proof.
  apply (sparkline_inside to_grid 120 28 [270; 435; 300]%Z).
  - apply rounding_to_grid.
  - discriminate.
  - repeat constructor; unfold clamped; lia.
  - lia.
  - lia.
Defined.

End Sparkline.

(** ** The leaderboard as drawn *)

Section RelativeTime.
Local Open Scope Z_scope.

(** X22: the label of a timestamp, by the milliseconds elapsed since: "just
    now" below 5 s (timestamps in the future included), whole seconds below
    one minute, whole minutes below one hour, whole hours below one day,
    whole days below one week, and the localized date from one week on. *)
Theorem formatRelativeTime_labels (f : Z -> string) (now ts : Z) :
  let e := now - ts in
  (e < 5000 -> formatRelativeTime f now ts = "just now"%string) /\
  (5000 <= e < 60000 ->
   formatRelativeTime f now ts = (pretty (e / 1000) ++ "s ago")%string) /\
  (60000 <= e < 3600000 ->
   formatRelativeTime f now ts = (pretty (e / 60000) ++ "m ago")%string) /\
  (3600000 <= e < 86400000 ->
   formatRelativeTime f now ts = (pretty (e / 3600000) ++ "h ago")%string) /\
  (86400000 <= e < 604800000 ->
   formatRelativeTime f now ts = (pretty (e / 86400000) ++ "d ago")%string) /\
  (604800000 <= e -> formatRelativeTime f now ts = f ts).
Proof.
  intros e. unfold formatRelativeTime. fold e.
  assert (M : e / 1000 / 60 = e / 60000) by (rewrite Z.div_div by lia; reflexivity).
  assert (H : e / 1000 / 60 / 60 = e / 3600000)
    by (rewrite !Z.div_div by lia; reflexivity).
  assert (D : e / 1000 / 60 / 60 / 24 = e / 86400000)
    by (rewrite !Z.div_div by lia; reflexivity).
  cbv zeta. rewrite D, H, M.
  repeat split; intros R;
    repeat match goal with
    | |- context [(?a <? ?b)] => destruct (Z.ltb_spec a b)
    end; try reflexivity; exfalso;
    Z.to_euclidean_division_equations; lia.
Qed.

Lemma formatRelativeTime_labels_witness :
  formatRelativeTime (fun _ => "Nov 14"%string) 1700003723000 1700000000000
  = "1h ago"%string.
Proof.
  pose proof (formatRelativeTime_labels (fun _ => "Nov 14"%string)
                1700003723000 1700000000000) as H.
  cbv zeta in H. destruct H as (_ & _ & _ & H & _).
  rewrite H; [reflexivity|lia].
Defined.

End RelativeTime.

Section BoardRows.

(** X23: what the leaderboard shows.  An empty list is drawn as one note,
    which says whether storage is disabled.  Otherwise one row is drawn for
    each of the first ten entries, in stored order: row [i] carries rank
    [i + 1], the podium class for the first three ranks only, and the name,
    round, mode and relative time of entry [i]. *)
Theorem renderLeaderboard_rows (f g : Z -> string) (now : Z) (w : World) :
  lbList (store w) = true ->
  let list := loadLeaderboard (store w) in
  exists items,
    renderLeaderboard f g now w = Some items /\
    (list = [] ->
     items = [LbNote (if storageOK (store w)
                      then "No scores yet — finish a game to record one!"
                      else "Storage disabled: scores are temporary.")]) /\
    (list <> [] ->
     length items = Nat.min 10 (length list) /\
     forall i e, i < 10 -> list !! i = Some e ->
       exists row,
         items !! i = Some (LbEntry row) /\
         rank row = pretty (i + 1) /\
         rankClass row
         = (if (i <? 3)%nat then Some ("rank-" ++ pretty (i + 1))%string else None) /\
         who row = Score.name e /\
         chipRound row = ("R" ++ pretty (Score.round e))%string /\
         chipMode row = (if Score.strict e then "Strict" else "Normal")%string /\
         lbTime row = formatRelativeTime f now (Score.time e)).
Proof.
  intros Lb list. unfold renderLeaderboard. rewrite Lb. cbn [negb]. fold list.
  destruct list as [|e0 l] eqn:E.
  - eexists. split; [reflexivity|]. split; [reflexivity|congruence].
  - rewrite <- E. replace (length list =? 0)%nat with false
      by (rewrite E; reflexivity).
    eexists. split; [reflexivity|]. split; [rewrite E; discriminate|].
    intros _. split.
    + rewrite length_imap, length_take. reflexivity.
    + intros i e Hi He. eexists. split.
      * rewrite list_lookup_imap, lookup_take_lt by exact Hi. rewrite He. reflexivity.
      * cbn. repeat split; reflexivity.
Qed.

Lemma renderLeaderboard_rows_witness :
  exists items,
    renderLeaderboard (fun _ => ""%string) (fun _ => ""%string) 0
      (world (run script_end_after_round1 config0)) = Some items /\
    length items = 1.
Proof.
  destruct (renderLeaderboard_rows (fun _ => ""%string) (fun _ => ""%string) 0
              (world (run script_end_after_round1 config0)) eq_refl)
    as (items & E & _ & R).
  exists items. split; [exact E|].
  destruct R as [R _]; [vm_compute; discriminate|].
  rewrite R. vm_compute. reflexivity.
Defined.

End BoardRows.

(** ** A full leaderboard, and tones *)

Section FullBoard.

Lemma sort_insert_front x l :
  Forall (ranks_before x) l -> sort_insert cmpScore x l = x :: l.
Proof.
  intros F. destruct F as [|y l R _]; [reflexivity|]. cbn.
  destruct (Qlt_le_dec 0 (cmpScore x y)) as [P|_]; [|reflexivity].
  apply cmpScore_pos in P. contradiction.
Qed.

Lemma Array_sort_ranked l :
  StronglySorted ranks_before l -> Array_sort cmpScore l = l.
Proof.
  induction 1 as [|x l S IH F]; [reflexivity|].
  change (sort_insert cmpScore x (Array_sort cmpScore l) = x :: l).
  rewrite IH. apply sort_insert_front, F.
Qed.

Lemma StronglySorted_snoc {A} (R : A -> A -> Prop) l e :
  StronglySorted R l -> Forall (fun x => R x e) l -> StronglySorted R (l ++ [e]).
Proof.
  induction 1 as [|x l S IH F]; intros G; cbn.
  - repeat constructor.
  - apply Forall_cons in G as [G1 G2]. constructor; [apply IH, G2|].
    apply Forall_app. split; [exact F|]. apply Forall_singleton, G1.
Qed.

(** X24: a full leaderboard drops a score that outranks none of its entries.
    With 200 entries in ranking order stored, a new score that every stored
    entry ranks before (ties included: the new score is the later one) is
    cut off again by the cap, and the list read back is the old one. *)
Theorem full_board_drops_low_score env name round acc strict t st :
  lbList st = true -> name <> ""%string ->
  storageOK st = false \/ setItemOk env = true ->
  StronglySorted ranks_before (loadLeaderboard st) ->
  length (loadLeaderboard st) = 200 ->
  Forall (fun x => ranks_before x
            (Score.mk name round acc strict (default (dateNow env) t)))
         (loadLeaderboard st) ->
  loadLeaderboard (addScore env name round acc strict t st) = loadLeaderboard st.
Proof.
  intros Lb Nm Ok S L F. rewrite addScore_load by assumption.
  rewrite Array_sort_ranked by (apply StronglySorted_snoc; assumption).
  rewrite take_app_length' by (symmetry; exact L). reflexivity.
Qed.

Lemma replicate_sorted (e : Score.t) n :
  StronglySorted ranks_before (replicate n e).
Proof.
  induction n as [|n IH]; cbn; constructor; [exact IH|].
  apply Forall_replicate, same_keys_ranks, same_keys_refl.
Qed.

Lemma full_board_drops_low_score_witness :
  let st := mkStore true true []
              (Some (replicate 200 (Score.mk "Bob" 5 0.9%Q false 100%Z))) in
  loadLeaderboard (addScore (env_at false 0) "Ada" 1 1%Q false None st)
  = loadLeaderboard st.
Proof.
  intros st. apply full_board_drops_low_score.
  - reflexivity.
  - discriminate.
  - right. reflexivity.
  - apply replicate_sorted.
  - apply length_replicate.
  - apply Forall_replicate. left. cbn. lia.
Defined.

End FullBoard.

Section Tones.
Local Open Scope Q_scope.

Lemma currentPreset_press checked p :
  currentPreset checked = Some p ->
  press p = 120 \/ press p = 150 \/ press p = 220.
Proof.
  assert (L : forall sel q, PRESETS !! sel = Some q ->
                press q = 120 \/ press q = 150 \/ press q = 220).
  { intros sel q E. unfold PRESETS in E.
    apply lookup_insert_Some in E as [[_ <-]|[_ E]]; [auto|].
    apply lookup_insert_Some in E as [[_ <-]|[_ E]]; [auto|].
    apply lookup_singleton_Some in E as [_ <-]. auto. }
  unfold currentPreset.
  set (sel := match checked with Some v => _ | None => _ end).
  destruct (PRESETS !! sel) as [q|] eqn:E.
  - intros H. injection H as <-. eapply L, E.
  - case_bool_decide; [discriminate|]. apply L.
Qed.

(** For a pad index 0..3 and a duration of more than 90 ms, [playTone]
    picks a frequency of the table and schedules the ramps in order. *)
Lemma playTone_schedule now index dur :
  signal index -> 90 < dur ->
  exists tone f,
    playTone true now index dur = Some tone /\
    frequency tone = Some f /\ In f FREQS /\
    startAt tone < rampUpEnd tone /\ rampUpEnd tone < rampDownEnd tone /\
    rampDownEnd tone < stopAt tone /\
    stopAt tone == now + dur / 1000 + 0.02.
Proof.
  intros S D. unfold playTone. cbn [negb]. cbv zeta.
  assert (F : exists f, (let r := Z.rem index (Z.of_nat (length FREQS)) in
                         if (r <? 0)%Z then None else FREQS !! Z.to_nat r) = Some f
                        /\ In f FREQS).
  { unfold signal in S.
    assert (C : (index = 0 \/ index = 1 \/ index = 2 \/ index = 3)%Z) by lia.
    destruct C as [-> |[-> |[-> | ->]]]; eexists; (split; [reflexivity|]);
      cbn; auto. }
  destruct F as (f & E & I).
  eexists. exists f. split; [reflexivity|]. cbn [frequency startAt rampUpEnd
    rampDownEnd stopAt]. split; [exact E|]. split; [exact I|].
  assert (M : Qmax 0.05 (dur / 1000) == dur / 1000).
  { apply Q.max_r. apply Qle_shift_div_l; lra. }
  assert (G : 0.09 < dur / 1000) by (apply Qlt_shift_div_l; lra).
  rewrite M. repeat split; lra.
Qed.

(** X25: the tones the engine plays.  With a tone radio whose value names
    no inherited member of the preset table, a preset is found and the step
    duration is a number; the press time is 120, 150 and 220 ms for the
    radios [short], [medium] and [long].  For a pad index 0..3, the press
    feedback (that press time) and the playback step (that step duration)
    are tones with a frequency of the table and an envelope in order: start,
    end of the attack, end of the release, stop, the oscillator stopping
    20 ms after the duration. *)
Theorem engine_tones_ordered checked s r now index :
  signal index -> tone_plain checked ->
  exists p d,
    currentPreset checked = Some p /\
    stepDuration checked s r = Num d /\
    (checked = Some "short"%string -> press p = 120) /\
    (checked = Some "medium"%string -> press p = 150) /\
    (checked = Some "long"%string -> press p = 220) /\
    forall dur, dur = press p \/ dur = d ->
      exists tone f,
        playTone true now index dur = Some tone /\
        frequency tone = Some f /\ In f FREQS /\
        startAt tone < rampUpEnd tone /\ rampUpEnd tone < rampDownEnd tone /\
        rampDownEnd tone < stopAt tone /\
        stopAt tone == now + dur / 1000 + 0.02.
Proof.
  intros S T. destruct (currentPreset_plain checked T) as [p E].
  exists p. eexists. split; [exact E|]. unfold stepDuration. rewrite E.
  split; [reflexivity|].
  destruct currentPreset_own as (Ps & Pm & Pl).
  split; [intros ->; rewrite Ps in E; injection E as <-; reflexivity|].
  split; [intros ->; rewrite Pm in E; injection E as <-; reflexivity|].
  split; [intros ->; rewrite Pl in E; injection E as <-; reflexivity|].
  intros dur D. apply playTone_schedule; [exact S|].
  destruct D as [-> | ->].
  - destruct (currentPreset_press checked p E) as [-> |[-> | ->]];
      unfold Qlt; cbn; lia.
  - eapply Qlt_le_trans; [|apply stepDurationOf_min]. unfold Qlt. cbn. lia.
Qed.

Lemma engine_tones_ordered_witness :
  exists tone f,
    playTone true 10 2 220 = Some tone /\
    frequency tone = Some f /\ In f FREQS /\
    startAt tone < rampUpEnd tone /\ rampUpEnd tone < rampDownEnd tone /\
    rampDownEnd tone < stopAt tone /\
    stopAt tone == 10 + 220 / 1000 + 0.02.
Proof.
  destruct (engine_tones_ordered (Some "long"%string) state0 0 10 2)
    as (p & d & _ & _ & _ & _ & L & F).
  - unfold signal. lia.
  - intros I. apply list_elem_of_In in I. cbn in I. intuition discriminate.
  - apply F. left. symmetry. apply L. reflexivity.
Defined.

End Tones.

(** ** The pace at high rounds *)

Section Floor.
Local Open Scope Q_scope.

(** X26: the pace bottoms out.  From round 13 on the step duration is the
    minimum of 200 ms, whatever the recent accuracy and the tone preset, for
    every tone radio whose value names no inherited member of the preset
    table. *)
Theorem stepDuration_floor checked s r :
  tone_plain checked -> (13 <= r)%nat ->
  exists d, stepDuration checked s r = Num d /\ d == 200.
Proof.
  intros T R. destruct (currentPreset_plain checked T) as [p E].
  unfold stepDuration. rewrite E. eexists. split; [reflexivity|].
  unfold stepDurationOf. cbv zeta.
  pose proof (Q.le_max_l 0 (getRecentAccuracy s - 0.60)) as B.
  assert (Q13 : 13 <= ofNat r) by (apply (ofNat_le 13); exact R).
  revert B Q13.
  generalize (Qmax 0 (getRecentAccuracy s - 0.60)) (ofNat r). intros b q B Q13.
  apply Q.max_l.
  destruct (currentPreset_Some checked p E) as [-> |[-> | ->]]; lra.
Qed.

Lemma stepDuration_floor_witness :
  exists d, stepDuration (Some "long"%string) state0 13 = Num d /\ d == 200.
Proof.
  apply stepDuration_floor; [|lia].
  intros I. apply list_elem_of_In in I. cbn in I. intuition discriminate.
Defined.

End Floor.
